(** * Role resolution and refinement orchestration of the call-transcript
      pipeline ([test.py])

    A shallow embedding of the speaker-role heuristics
    ([retry_with_modified_prompt], [create_fallback_transcript]), of the
    two-attempt refinement driver ([process_transcript_with_llm]) and of the
    embedding extraction wrapper ([segment_embedding]), followed by the
    properties established about them.

    Conventions.  Python [str] values are modelled by [string]; the model
    covers ASCII text, for which [str.lower], [str.split] and the regular
    expression classes have the elementary meaning written out below.  Python
    integers are [Z].  A [dict] whose iteration order matters is an
    association list kept in insertion order. *)

From Stdlib Require Import ZArith QArith List String Ascii Bool Lia.
From Stdlib Require Import Sorted Permutation.
From Stdlib Require Import DecimalString DecimalPos DecimalZ Floats.
Import ListNotations.

Local Open Scope string_scope.
Local Open Scope Z_scope.

(** ** Python string primitives *)

Module Py.

(** [c.lower()] on an ASCII character. *)
Definition lower_char (c : ascii) : ascii :=
  let n := nat_of_ascii c in
  if ((65 <=? n) && (n <=? 90))%nat then ascii_of_nat (n + 32) else c.

(** [s.lower()] *)
Fixpoint lower (s : string) : string :=
  match s with
  | EmptyString => EmptyString
  | String c r => String (lower_char c) (lower r)
  end.

(** [s.startswith(p)] *)
Definition startswith (p s : string) : bool := String.prefix p s.

(** [sub in s] *)
Fixpoint contains (sub s : string) : bool :=
  startswith sub s ||
  match s with
  | EmptyString => false
  | String _ r => contains sub r
  end.

(** [s.endswith(suf)] *)
Fixpoint endswith (suf s : string) : bool :=
  String.eqb suf s ||
  match s with
  | EmptyString => false
  | String _ r => endswith suf r
  end.

(** Characters on which [str.split()] separates (ASCII range). *)
Definition is_space (c : ascii) : bool :=
  let n := nat_of_ascii c in
  (((9 <=? n) && (n <=? 13)) || ((28 <=? n) && (n <=? 32)))%nat.

(** [s.split()]: the maximal runs of non-space characters, in order.
    [cur] is the run being read, if any. *)
Fixpoint split_from (cur : option string) (s : string) : list string :=
  match s with
  | EmptyString => match cur with Some w => [w] | None => [] end
  | String c r =>
      if is_space c then
        match cur with
        | Some w => w :: split_from None r
        | None => split_from None r
        end
      else
        split_from
          (Some (match cur with Some w => w | None => EmptyString end
                 ++ String c EmptyString)) r
  end.

Definition split (s : string) : list string := split_from None s.

(** [sep.join(items)] *)
Definition join (sep : string) (items : list string) : string :=
  String.concat sep items.

(** [str(n)] for an integer, as used by f-strings. *)
Definition str_of_int (n : Z) : string := NilZero.string_of_int (Z.to_int n).

End Py.

(** ** The fragment of [re] used by the patterns

    The seven patterns of the source are built from literals, alternation,
    concatenation and the word-boundary assertion; none uses repetition. *)

Module Re.

Inductive regex : Type :=
| Lit (w : string)            (* literal text *)
| WordB                       (* \b *)
| Alt (r1 r2 : regex)         (* r1|r2 *)
| Seq (r1 r2 : regex).        (* r1r2 *)

(** [\w] on ASCII: letters, digits and the underscore. *)
Definition is_word (c : ascii) : bool :=
  let n := nat_of_ascii c in
  (((48 <=? n) && (n <=? 57)) || ((65 <=? n) && (n <=? 90))
   || ((97 <=? n) && (n <=? 122)) || (n =? 95))%nat.

Definition is_word_opt (c : option ascii) : bool :=
  match c with Some c => is_word c | None => false end.

Definition head_char (s : string) : option ascii :=
  match s with EmptyString => None | String c _ => Some c end.

(** A matching position: the character just before the cursor (none at the
    start of the text) and the text that remains after it. *)
Definition cursor : Type := option ascii * string.

(** Consume the literal [w] at the cursor. *)
Fixpoint eat (w : string) (k : cursor) : option cursor :=
  match w with
  | EmptyString => Some k
  | String c w' =>
      match snd k with
      | String d rest =>
          if Ascii.eqb c d then eat w' (Some d, rest) else None
      | EmptyString => None
      end
  end.

(** All cursors at which a match of [r] started at [k] can end. *)
Fixpoint ends (r : regex) (k : cursor) : list cursor :=
  match r with
  | Lit w => match eat w k with Some k' => [k'] | None => [] end
  | WordB =>
      if xorb (is_word_opt (fst k)) (is_word_opt (head_char (snd k)))
      then [k] else []
  | Alt r1 r2 => (ends r1 k ++ ends r2 k)%list
  | Seq r1 r2 => flat_map (ends r2) (ends r1 k)
  end.

Definition matches_at (r : regex) (k : cursor) : bool :=
  match ends r k with [] => false | _ :: _ => true end.

Fixpoint search_from (r : regex) (prev : option ascii) (s : string) : bool :=
  matches_at r (prev, s) ||
  match s with
  | EmptyString => false
  | String c rest => search_from r (Some c) rest
  end.

(** [re.search(r, s)] seen as a truth value. *)
Definition search (r : regex) (s : string) : bool := search_from r None s.

(** [(?:w|w1|...|wn)] *)
Fixpoint alts (w : string) (ws : list string) : regex :=
  match ws with
  | [] => Lit w
  | w' :: ws' => Alt (Lit w) (alts w' ws')
  end.

(** Concatenation of a non-empty sequence of pieces. *)
Fixpoint seqs (r : regex) (rs : list regex) : regex :=
  match rs with
  | [] => r
  | r' :: rs' => Seq r (seqs r' rs')
  end.

End Re.

(** ** Insertion-ordered dictionaries

    [dict] objects whose [items()] order is observed by the code: keys are
    the integer speaker numbers, entries stay where they were first
    inserted. *)

Module Dict.
Section Dict.
Context {V : Type}.

Definition t : Type := list (Z * V).

(** [d.get(k)] *)
Fixpoint get (k : Z) (d : t) : option V :=
  match d with
  | [] => None
  | (k', v) :: d' => if k =? k' then Some v else get k d'
  end.

(** [k in d] *)
Definition mem (k : Z) (d : t) : bool :=
  match get k d with Some _ => true | None => false end.

(** [if k not in d: d[k] = v] *)
Definition add_if_absent (k : Z) (v : V) (d : t) : t :=
  if mem k d then d else (d ++ [(k, v)])%list.

(** [d[k] = f(d[k])] for a key already present; the entry keeps its
    place. *)
Fixpoint adjust (f : V -> V) (k : Z) (d : t) : t :=
  match d with
  | [] => []
  | (k', v) :: d' =>
      if k =? k' then (k', f v) :: d' else (k', v) :: adjust f k d'
  end.

Definition keys (d : t) : list Z := map fst d.
End Dict.
Arguments t : clear implicits.
End Dict.

(** ** Data model *)

(** One entry of [transcript_data], as built by [run_diarization]: the
    ["speaker"] field is the text [SPEAKER n] with [n] the cluster label
    plus one, and every reader of the field recovers [n] with
    [int(segment["speaker"].split()[-1])].  The record keeps [n]. *)
Record segment : Type := mkSegment {
  speaker_num : Z;
  start_time : string;
  text : string
}.

(** [segment['speaker']] *)
Definition speaker (s : segment) : string :=
  "SPEAKER " ++ Py.str_of_int (speaker_num s).

Definition transcript : Type := list segment.

(** [int(label.split()[-1])] on a label: the last blank-separated token
    read as a decimal integer, [None] where the indexing or [int] raises.
    Only the plain decimal notation written by [run_diarization] is read;
    a leading [+], digit separators and other spellings that [int] also
    accepts are left out. *)
Definition speaker_num_of (label : string) : option Z :=
  match rev (Py.split label) with
  | [] => None
  | token :: _ => option_map Z.of_int (NilZero.int_of_string token)
  end.

(** The value stored per speaker in [speaker_scores]. *)
Record scores : Type := mkScores {
  customer : Z;
  agent : Z
}.

Definition score_table : Type := Dict.t scores.

(** ** Lexicons and patterns of [retry_with_modified_prompt] *)

Definition customer_phrases : list string :=
  [ "lost"; "my card"; "my account"; "i want"; "i need"; "my name is";
    "i'm trying to"; "i was"; "i have a"; "i lost"; "i can't"; "i don't";
    "help me"; "my credit card"; "my number"; "my phone"; "my email";
    "cancel"; "stolen"; "fraud"; "charge"; "payment"; "i paid"; "i bought";
    "i ordered"; "my order"; "refund"; "my balance"; "my statement" ].

Definition agent_phrases : list string :=
  [ "can you provide"; "what is your"; "thank you for"; "how can i help";
    "may i have"; "could you confirm"; "i'll need to verify";
    "for security purposes";
    "is there anything else"; "i understand"; "our records"; "our system";
    "let me check"; "according to"; "i've checked"; "i can see";
    "may i have your";
    "can i get your"; "i'll assist you"; "please hold"; "let me pull up";
    "is that correct"; "would you like"; "thank you for calling";
    "thank you for your patience";
    "is there anything else i can help with"; "have i resolved";
    "card ending in" ].

Definition customer_patterns : list Re.regex :=
  [ (* \b(?:my|our) (?:card|account|order|payment)\b *)
    Re.seqs Re.WordB
      [ Re.alts "my" ["our"]; Re.Lit " ";
        Re.alts "card" ["account"; "order"; "payment"]; Re.WordB ];
    (* \bi (?:lost|need|want|can't|don't|have a|would like|am trying)\b *)
    Re.seqs Re.WordB
      [ Re.Lit "i ";
        Re.alts "lost" ["need"; "want"; "can't"; "don't"; "have a";
                        "would like"; "am trying"];
        Re.WordB ];
    (* \bmy (?:name|email|phone|address|balance)\b *)
    Re.seqs Re.WordB
      [ Re.Lit "my ";
        Re.alts "name" ["email"; "phone"; "address"; "balance"];
        Re.WordB ] ].

Definition agent_patterns : list Re.regex :=
  [ (* \b(?:could|may|can) (?:you|i) (?:have|get|confirm|verify)\b *)
    Re.seqs Re.WordB
      [ Re.alts "could" ["may"; "can"]; Re.Lit " ";
        Re.alts "you" ["i"]; Re.Lit " ";
        Re.alts "have" ["get"; "confirm"; "verify"]; Re.WordB ];
    (* \bfor (?:security|verification|identification) purposes\b *)
    Re.seqs Re.WordB
      [ Re.Lit "for ";
        Re.alts "security" ["verification"; "identification"];
        Re.Lit " purposes"; Re.WordB ];
    (* \b(?:our|the) (?:records|system|policy|team)\b *)
    Re.seqs Re.WordB
      [ Re.alts "our" ["the"]; Re.Lit " ";
        Re.alts "records" ["system"; "policy"; "team"]; Re.WordB ];
    (* \bi(?:'ll| will) (?:assist|help|check|verify|need)\b *)
    Re.seqs Re.WordB
      [ Re.Lit "i"; Re.alts "'ll" [" will"]; Re.Lit " ";
        Re.alts "assist" ["help"; "check"; "verify"; "need"]; Re.WordB ] ].

(** ** RoleScorer: the passes that fill [speaker_scores] *)

(** [speaker_scores[k]["customer"] += w] *)
Definition add_customer (k w : Z) (t : score_table) : score_table :=
  Dict.adjust (fun sc => mkScores (customer sc + w) (agent sc)) k t.

(** [speaker_scores[k]["agent"] += w] *)
Definition add_agent (k w : Z) (t : score_table) : score_table :=
  Dict.adjust (fun sc => mkScores (customer sc) (agent sc + w)) k t.

(** The initialisation loop: one zero entry per speaker, in order of first
    appearance. *)
Definition init_scores (td : transcript) : score_table :=
  fold_left
    (fun t seg => Dict.add_if_absent (speaker_num seg) (mkScores 0 0) t)
    td [].

(** The body of the first pass for one segment. *)
Definition score_segment (t : score_table) (seg : segment) : score_table :=
  let txt := Py.lower (text seg) in
  let k := speaker_num seg in
  let t := fold_left
             (fun t phrase =>
                if Py.contains phrase txt then add_customer k 1 t else t)
             customer_phrases t in
  let t := fold_left
             (fun t pattern =>
                if Re.search pattern txt then add_customer k 2 t else t)
             customer_patterns t in
  let t := fold_left
             (fun t phrase =>
                if Py.contains phrase txt then add_agent k 1 t else t)
             agent_phrases t in
  fold_left
    (fun t pattern => if Re.search pattern txt then add_agent k 2 t else t)
    agent_patterns t.

(** First pass: text-based evidence. *)
Definition text_pass (td : transcript) (t : score_table) : score_table :=
  fold_left score_segment td t.

(** Second pass: the opening and the closing speaker. *)
Definition position_pass (td : transcript) (t : score_table) : score_table :=
  match td with
  | [] => t
  | first :: _ =>
      let t := add_agent (speaker_num first) 1 t in
      add_agent (speaker_num (last td first)) 1 t
  end.

(** Question-answer pairs: the loop over [range(len(transcript_data) - 1)]. *)
Fixpoint question_pass (td : transcript) (t : score_table) : score_table :=
  match td with
  | cur :: (next :: _) as rest =>
      let current_text := Py.lower (text cur) in
      let t :=
        if Py.endswith "?" current_text
           && negb (speaker_num cur =? speaker_num next)
        then add_customer (speaker_num next) 1
               (add_agent (speaker_num cur) 1 t)
        else t in
      question_pass rest t
  | _ => t
  end.

(** [speaker_scores] as it stands when the scoring loops are done. *)
Definition speaker_scores (td : transcript) : score_table :=
  question_pass td (position_pass td (text_pass td (init_scores td))).

(** ** RoleResolver: from scores to [likely_customer], [likely_agent] *)

(** The pair ([likely_customer], [likely_agent]); [None] is Python's
    [None]. *)
Definition assignment : Type := (option Z * option Z)%type.

Definition is_none {A : Type} (o : option A) : bool :=
  match o with None => true | Some _ => false end.

(** [speaker == likely] where [likely] may be [None] *)
Definition eq_opt (sp : Z) (likely : option Z) : bool :=
  match likely with Some x => sp =? x | None => false end.

(** [speaker != likely] where [likely] may be [None] *)
Definition neq_opt (sp : Z) (likely : option Z) : bool := negb (eq_opt sp likely).

(** One iteration of the loop over [speaker_scores.items()] that looks for
    clear signals. *)
Definition primary_step (a : assignment) (e : Z * scores) : assignment :=
  let '(likely_customer, likely_agent) := a in
  let '(sp, sc) := e in
  if (customer sc >? agent sc) && is_none likely_customer
  then (Some sp, likely_agent)
  else if (agent sc >? customer sc) && is_none likely_agent
  then (likely_customer, Some sp)
  else a.

Definition primary_pass (t : score_table) : assignment :=
  fold_left primary_step t (None, None).

(** One iteration of a highest-score loop: the state is the running maximum
    and the speaker chosen so far; [other] is the role already given away. *)
Definition max_step (score : scores -> Z) (other : option Z)
    (st : Z * option Z) (e : Z * scores) : Z * option Z :=
  let '(max_score, likely) := st in
  let '(sp, sc) := e in
  if neq_opt sp other && (score sc >? max_score)
  then (score sc, Some sp)
  else st.

(** The highest-score loop, started at [-1] with nobody chosen. *)
Definition max_by (score : scores -> Z) (other : option Z)
    (t : score_table) : option Z :=
  snd (fold_left (max_step score other) t (-1, None)).

(** The block guarded by [likely_customer is None or likely_agent is None]. *)
Definition max_score_fallback (t : score_table) (a : assignment)
    : assignment :=
  let '(likely_customer, likely_agent) := a in
  if is_none likely_customer || is_none likely_agent then
    let likely_customer :=
      if is_none likely_customer then max_by customer likely_agent t
      else likely_customer in
    let likely_agent :=
      if is_none likely_agent then max_by agent likely_customer t
      else likely_agent in
    (likely_customer, likely_agent)
  else a.

(** [speaker_words]: words spoken per speaker, in order of first
    appearance. *)
Definition count_words (td : transcript) : Dict.t Z :=
  fold_left
    (fun w seg =>
       let k := speaker_num seg in
       Dict.adjust
         (fun n => n + Z.of_nat (List.length (Py.split (text seg)))) k
         (Dict.add_if_absent k 0 w))
    td [].

(** [sorted(items, key=lambda x: x[1])]: ascending and stable. *)
Fixpoint insert_by_count (x : Z * Z) (l : list (Z * Z)) : list (Z * Z) :=
  match l with
  | [] => [x]
  | y :: l' =>
      if snd x <=? snd y then x :: y :: l' else y :: insert_by_count x l'
  end.

Fixpoint sorted_by_count (l : list (Z * Z)) : list (Z * Z) :=
  match l with
  | [] => []
  | x :: l' => insert_by_count x (sorted_by_count l')
  end.

(** The block guarded by [likely_customer is None and likely_agent is
    None]. *)
Definition word_count_fallback (td : transcript) (a : assignment)
    : assignment :=
  match a with
  | (None, None) =>
      let sorted_speakers := sorted_by_count (count_words td) in
      match sorted_speakers with
      | fewest :: _ :: _ =>
          let likely_agent := fst (last sorted_speakers fewest) in
          let likely_customer := fst fewest in
          (Some likely_customer, Some likely_agent)
      | _ => a
      end
  | _ => a
  end.

(** The assignment after the first two steps, and after all three. *)
Definition after_max_score (td : transcript) : assignment :=
  let t := speaker_scores td in
  max_score_fallback t (primary_pass t).

Definition resolve_roles (td : transcript) : assignment :=
  word_count_fallback td (after_max_score td).

(** ** TranscriptComposer: rendering of lines *)

Definition dq : string := String (ascii_of_nat 34) EmptyString.
Definition nl : string := String (ascii_of_nat 10) EmptyString.

(** [f"{label} at {segment['start_time']}: {segment['text']}"] *)
Definition line (label : string) (seg : segment) : string :=
  label ++ " at " ++ start_time seg ++ ": " ++ text seg.

(** The transcript with the generic speaker labels, one line per segment:
    the value returned by both failure branches of
    [process_transcript_with_llm]. *)
Definition generic_transcript (td : transcript) : string :=
  Py.join nl (map (fun seg => line (speaker seg) seg) td).

(** The role given to a segment by the first branch of
    [create_fallback_transcript] (neither role known). *)
Definition parity_role (seg : segment) : string :=
  if speaker_num seg mod 2 =? 1 then "CUSTOMER" else "AGENT".

(** The role given to a segment by the second branch (some role known). *)
Definition identified_role (likely_customer likely_agent : option Z)
    (seg : segment) : string :=
  if eq_opt (speaker_num seg) likely_customer then "CUSTOMER"
  else if eq_opt (speaker_num seg) likely_agent then "AGENT"
  else if is_none likely_customer then "CUSTOMER"
  else if is_none likely_agent then "AGENT"
  else "SPEAKER".

(** The list [fallback_transcript] built by [create_fallback_transcript]. *)
Definition fallback_lines (td : transcript)
    (likely_customer likely_agent : option Z) : list string :=
  if is_none likely_customer && is_none likely_agent then
    map (fun seg => line (parity_role seg) seg) td
  else
    map (fun seg =>
           line (identified_role likely_customer likely_agent seg) seg) td.

Definition create_fallback_transcript (td : transcript)
    (likely_customer likely_agent : option Z) : string :=
  Py.join nl (fallback_lines td likely_customer likely_agent).

(** ** Prompts *)

(** [formatted_input] of the first attempt. *)
Definition plain_input (td : transcript) : string :=
  fold_left
    (fun acc seg => acc ++ line (speaker seg) seg ++ nl ++ nl) td "".

(** [speaker_scores.get(sp, {}).get(field, 0)] *)
Definition score_or_zero (field : scores -> Z) (sp : Z) (t : score_table)
    : Z :=
  match Dict.get sp t with Some sc => field sc | None => 0 end.

(** [speaker_hint] for one segment of the retry prompt. *)
Definition speaker_hint (t : score_table) (a : assignment) (seg : segment)
    : string :=
  let '(likely_customer, likely_agent) := a in
  let current_speaker := speaker_num seg in
  if eq_opt current_speaker likely_customer then
    let evidence :=
      if score_or_zero customer current_speaker t >? 0
      then ["score: " ++ Py.str_of_int (score_or_zero customer current_speaker t)]
      else [] in
    match evidence with
    | [] => " (likely CUSTOMER)"
    | _ => " (likely CUSTOMER - " ++ Py.join ", " evidence ++ ")"
    end
  else if eq_opt current_speaker likely_agent then
    let evidence :=
      if score_or_zero agent current_speaker t >? 0
      then ["score: " ++ Py.str_of_int (score_or_zero agent current_speaker t)]
      else [] in
    match evidence with
    | [] => " (likely AGENT)"
    | _ => " (likely AGENT - " ++ Py.join ", " evidence ++ ")"
    end
  else "".

(** [formatted_input] of the retry: every line carries its hint. *)
Definition hinted_input (t : score_table) (a : assignment) (td : transcript)
    : string :=
  fold_left
    (fun acc seg =>
       acc ++ line (speaker seg ++ speaker_hint t a seg) seg ++ nl ++ nl)
    td "".

(** Text of the prompt of the first attempt before the transcript. *)
Definition first_prompt_head : string :=
  "<|begin_of_text|><|start_header_id|>system<|end_header_id|>
You are an expert in analyzing customer service call transcripts. Your task is to:

1. Identify which speaker is the Customer and which is the Agent.
   - The Customer is the one who has a problem, question, or need
   - The Agent is the one who provides service, asks verification questions, and offers solutions
   - There MUST be both an AGENT and a CUSTOMER in the transcript

2. Clean up the transcript by removing noise, repetitions, and correcting any obvious transcription errors.
3. Mask PII (Personally Identifiable Information) like full names, complete addresses, credit card numbers, SSNs, etc. with [MASKED PII].
4. Return the improved transcript with correct speaker labels (AGENT or CUSTOMER).

Speaker identification guidelines:
- Agents typically: ask verification questions, follow scripts, provide solutions, use professional language
- Customers typically: describe problems, answer questions, make requests, provide personal information
- If a speaker says they "
  ++ dq
  ++ "lost a card"
  ++ dq
  ++ " or mentions "
  ++ dq
  ++ "my account"
  ++ dq
  ++ ", they are almost certainly the CUSTOMER
- If a speaker asks for ID, verification information, or explains policies, they are almost certainly the AGENT

Formatting guidelines:
- Format each speaker turn as "
  ++ dq
  ++ "AGENT at [timestamp]: [text]"
  ++ dq
  ++ " or "
  ++ dq
  ++ "CUSTOMER at [timestamp]: [text]"
  ++ dq
  ++ "
- Preserve all timestamps exactly as provided
- Ensure the transcript flows naturally with appropriate turn-taking
- Remove filler words and speech artifacts that don't add meaning<|eot_id|>
<|start_header_id|>user<|end_header_id|>

Please process this call transcript, identifying which speaker is the agent and which is the customer, cleaning up the text, and masking any PII:

".

(** Text of the prompt of the first attempt after the transcript. *)
Definition first_prompt_tail : string :=
  "<|eot_id|>
<|start_header_id|>assistant<|end_header_id|>".

(** Text of the prompt of the retry before the transcript. *)
Definition retry_prompt_head : string :=
  "<|begin_of_text|><|start_header_id|>system<|end_header_id|>
You are an expert in analyzing customer service call transcripts. I've provided speaker hints based on detailed content analysis.
Your task is to correctly identify speakers and clean the transcript.

IMPORTANT: You MUST label speakers as either "
  ++ dq
  ++ "AGENT"
  ++ dq
  ++ " or "
  ++ dq
  ++ "CUSTOMER"
  ++ dq
  ++ " - each conversation MUST have both roles.
- AGENT: The customer service representative who helps solve issues, asks verification questions, provides information
- CUSTOMER: The person who has called with a problem, question, or need related to their account, card, or service

Context clues for CUSTOMER:
- Mentions personal issues: "
  ++ dq
  ++ "I lost my card"
  ++ dq
  ++ ", "
  ++ dq
  ++ "my account"
  ++ dq
  ++ ", "
  ++ dq
  ++ "I need help with"
  ++ dq
  ++ "
- Provides personal information when asked
- Describes problems they're experiencing
- Makes requests for assistance
- Often speaks less overall than the agent

Context clues for AGENT:
- Uses professional language and scripted phrases
- Asks verification questions: "
  ++ dq
  ++ "Can I have your account number?"
  ++ dq
  ++ ", "
  ++ dq
  ++ "What's your name?"
  ++ dq
  ++ "
- Explains policies or procedures: "
  ++ dq
  ++ "For security purposes"
  ++ dq
  ++ ", "
  ++ dq
  ++ "According to our policy"
  ++ dq
  ++ "
- Offers solutions: "
  ++ dq
  ++ "I can help you with that"
  ++ dq
  ++ ", "
  ++ dq
  ++ "Let me check that for you"
  ++ dq
  ++ "
- Often begins and ends the conversation

For each turn, output exactly in this format:
"
  ++ dq
  ++ "AGENT at [timestamp]: [cleaned text]"
  ++ dq
  ++ " or "
  ++ dq
  ++ "CUSTOMER at [timestamp]: [cleaned text]"
  ++ dq
  ++ "<|eot_id|>
<|start_header_id|>user<|end_header_id|>

Please correctly identify speakers and clean this transcript:

".

(** Text of the prompt of the retry after the transcript. *)
Definition retry_prompt_tail : string :=
  "<|eot_id|>
<|start_header_id|>assistant<|end_header_id|>".

Definition first_prompt (td : transcript) : string :=
  first_prompt_head ++ plain_input td ++ first_prompt_tail.

Definition retry_prompt (t : score_table) (a : assignment) (td : transcript)
    : string :=
  retry_prompt_head ++ hinted_input t a td ++ retry_prompt_tail.

(** ** RefinementOrchestrator: the HTTP exchanges *)

(** The JSON body posted to the endpoint: [{"prompt": [prompt], "kwargs":
    {...}}]; the three generation settings are decimal literals. *)
Record request : Type := mkRequest {
  endpoint : string;
  prompt : string;
  temperature : Q;
  max_tokens : Z;
  top_p : Q
}.

(** What one [requests.post] followed by the decoding of the answer gives:
    either the call raises, or a response arrives with a status code and,
    when [response.json()[0]['outputs'][0]['text']] can be read, that
    text. *)
Inductive reply : Type :=
| Raised
| Response (status_code : Z) (body_text : option string).

(** Computations that post requests: the state is the list of requests
    sent so far, oldest first. *)
Definition IO (A : Type) : Type := list request -> A * list request.

Definition ret {A : Type} (x : A) : IO A := fun sent => (x, sent).

Definition bind {A B : Type} (m : IO A) (k : A -> IO B) : IO B :=
  fun sent => let '(x, sent') := m sent in k x sent'.

Notation "x <- m ;; k" := (bind m (fun x => k))
  (at level 61, m at next level, right associativity).

(** The request of the first attempt. *)
Definition first_request (llm_endpoint : string) (td : transcript) : request :=
  mkRequest llm_endpoint (first_prompt td) (1 # 10) 4096 (9 # 10).

(** The request of the retry: the prompt carries the hints drawn from the
    scores and from the resolved roles, the temperature is lower. *)
Definition retry_request (llm_endpoint : string) (td : transcript) : request :=
  mkRequest llm_endpoint
    (retry_prompt (speaker_scores td) (resolve_roles td) td)
    (1 # 20) 4096 (9 # 10).

Section Orchestrator.

(** The text-refinement service: its answer to the [n]-th request
    (counted from 0) with the given content. *)
Variable refiner : nat -> request -> reply.

Definition post (req : request) : IO reply :=
  fun sent => (refiner (List.length sent) req, (sent ++ [req])%list).

(** [retry_with_modified_prompt]: scoring and resolution as above, then
    the second exchange. *)
Definition retry_with_modified_prompt (td : transcript)
    (llm_endpoint : string) : IO string :=
  let '(likely_customer, likely_agent) := resolve_roles td in
  response <- post (retry_request llm_endpoint td) ;;
  match response with
  | Response 200 (Some processed_transcript) => ret processed_transcript
  | Response 200 None =>
      (* decoding raised: the [except] branch *)
      ret (create_fallback_transcript td likely_customer likely_agent)
  | Response _ _ =>
      (* any other status: the [else] branch *)
      ret (create_fallback_transcript td likely_customer likely_agent)
  | Raised =>
      (* the call raised: the [except] branch *)
      ret (create_fallback_transcript td likely_customer likely_agent)
  end.

Definition process_transcript_with_llm (td : transcript)
    (llm_endpoint : string) : IO string :=
  response <- post (first_request llm_endpoint td) ;;
  match response with
  | Response 200 (Some processed_transcript) =>
      if negb (Py.contains "AGENT" processed_transcript)
         || negb (Py.contains "CUSTOMER" processed_transcript)
      then retry_with_modified_prompt td llm_endpoint
      else ret processed_transcript
  | Response 200 None =>
      (* decoding raised: the [except] branch *)
      ret (generic_transcript td)
  | Response _ _ =>
      (* any other status: the [else] branch *)
      ret (generic_transcript td)
  | Raised =>
      (* the call raised: the [except] branch *)
      ret (generic_transcript td)
  end.

End Orchestrator.

(** The default endpoint of [process_transcript_with_llm]. *)
Definition default_endpoint : string := "http://localhost:8503/llama_generate".

(** ** EmbeddingExtractor: [segment_embedding] *)

Module Embedding.

(** Arrays and tensors: a shape and the elements in row-major order. *)
Record ndarray : Type := mkArray {
  shape : list nat;
  data : list float
}.

(** [np.zeros(n)] *)
Definition zeros (n : nat) : ndarray := mkArray [n] (repeat 0%float n).

(** [x[None]]: one more leading axis of length one. *)
Definition add_batch_axis (x : ndarray) : ndarray :=
  mkArray (1%nat :: shape x) (data x).

(** [min(a, b)] on two floats: the first argument unless the second is
    smaller. *)
Definition py_min (a b : float) : float :=
  if PrimFloat.ltb b a then b else a.

(** A segment of the transcriber: only the times matter here. *)
Record whisper_segment : Type := mkWhisperSegment {
  seg_start : float;
  seg_end : float
}.

(** [pyannote.core.Segment(start, end)] *)
Record clip : Type := mkClip {
  clip_start : float;
  clip_end : float
}.

(** The span handed to the audio reader. *)
Definition clip_of (segment : whisper_segment) (duration : float) : clip :=
  let start := seg_start segment in
  let end_ := py_min duration (seg_end segment) in
  mkClip start end_.

Section SegmentEmbedding.

(** [audio_obj.crop(audio_path, clip)]: the waveform and the sample rate,
    or [None] when it raises. *)
Variable crop : string -> clip -> option (ndarray * Z).

(** [waveform.mean(axis=0, keepdims=True)], or [None] when it raises. *)
Variable mean_channels : ndarray -> option ndarray.

(** [embedding_model(batch)], or [None] when it raises. *)
Variable embedding_model : ndarray -> option ndarray.

(** The statements under [try]: [None] stands for a raised exception. *)
Definition try_embedding (audio_path : string) (c : clip)
    : option ndarray :=
  match crop audio_path c with
  | None => None
  | Some (waveform, sample_rate) =>
      match shape waveform with
      | [] => None                      (* [waveform.shape[0]] raises *)
      | channels :: _ =>
          match
            (if (1 <? channels)%nat then mean_channels waveform
             else Some waveform)
          with
          | None => None
          | Some waveform => embedding_model (add_batch_axis waveform)
          end
      end
  end.

Definition segment_embedding (segment : whisper_segment) (duration : float)
    (audio_path : string) : ndarray :=
  let c := clip_of segment duration in
  match try_embedding audio_path c with
  | Some embedding => embedding
  | None => zeros 192               (* the [except] branch *)
  end.

End SegmentEmbedding.
End Embedding.

(** ** Reference definitions, following the wording of the specification

    These are not translations of code: they restate what the specification
    says the scorer and the resolver compute, for comparison with the
    definitions above. *)

Module Spec.

(** Number of elements of [l] that satisfy [p]. *)
Definition count_if {A : Type} (p : A -> bool) (l : list A) : Z :=
  Z.of_nat (List.length (filter p l)).

Definition sum_Z (l : list Z) : Z := fold_right Z.add 0 l.

Definition in_cluster (c : Z) (seg : segment) : bool := speaker_num seg =? c.

(** The cluster ids of a transcript, each once, in order of first
    appearance. *)
Fixpoint order_of_appearance (ids : list Z) : list Z :=
  match ids with
  | [] => []
  | c :: rest =>
      c :: filter (fun c' => negb (c' =? c)) (order_of_appearance rest)
  end.

Definition clusters (td : transcript) : list Z :=
  order_of_appearance (map speaker_num td).

(** Rules 1 and 2: what one segment brings to its cluster. *)
Definition lexical_customer (seg : segment) : Z :=
  let txt := Py.lower (text seg) in
  count_if (fun phrase => Py.contains phrase txt) customer_phrases
  + 2 * count_if (fun pattern => Re.search pattern txt) customer_patterns.

Definition lexical_agent (seg : segment) : Z :=
  let txt := Py.lower (text seg) in
  count_if (fun phrase => Py.contains phrase txt) agent_phrases
  + 2 * count_if (fun pattern => Re.search pattern txt) agent_patterns.

(** Rule 3: one point for opening the call, one for closing it. *)
Definition positional_bonus (c : Z) (td : transcript) : Z :=
  match td with
  | [] => 0
  | first :: _ =>
      (if in_cluster c first then 1 else 0)
      + (if in_cluster c (last td first) then 1 else 0)
  end.

(** Rule 4: consecutive pairs in different clusters whose earlier text ends
    with a question mark. *)
Definition consecutive_pairs (td : transcript) : list (segment * segment) :=
  combine td (tl td).

Definition question_pair (p : segment * segment) : bool :=
  negb (speaker_num (fst p) =? speaker_num (snd p))
  && Py.endswith "?" (text (fst p)).

Definition customer_score (c : Z) (td : transcript) : Z :=
  sum_Z (map lexical_customer (filter (in_cluster c) td))
  + count_if (fun p => question_pair p && in_cluster c (snd p))
      (consecutive_pairs td).

Definition agent_score (c : Z) (td : transcript) : Z :=
  sum_Z (map lexical_agent (filter (in_cluster c) td))
  + positional_bonus c td
  + count_if (fun p => question_pair p && in_cluster c (fst p))
      (consecutive_pairs td).

(** The score table of the four rules, as a lookup. *)
Definition reference_scores (td : transcript) (c : Z) : option scores :=
  if existsb (in_cluster c) td
  then Some (mkScores (customer_score c td) (agent_score c td))
  else None.

(** Table entries by ascending cluster id (insertion sort on the key). *)
Fixpoint insert_by_id (e : Z * scores) (l : score_table) : score_table :=
  match l with
  | [] => [e]
  | e' :: l' =>
      if fst e <=? fst e' then e :: e' :: l' else e' :: insert_by_id e l'
  end.

Definition ascending (t : score_table) : score_table :=
  fold_right insert_by_id [] t.

(** The primary pass as the specification words it: clusters visited in
    ascending id order. *)
Definition primary_pass_ascending (t : score_table) : assignment :=
  primary_pass (ascending t).

(** Ties of the max-score fallback broken by lowest cluster id, as the
    specification words it. *)
Definition max_by_lowest_id (score : scores -> Z) (other : option Z)
    (t : score_table) : option Z :=
  max_by score other (ascending t).

(** The candidates of a max-score loop: entries not holding the other
    role. *)
Definition candidates (other : option Z) (t : score_table) : score_table :=
  filter (fun e => neq_opt (fst e) other) t.

(** [sp] is the first entry of [cands], in list order, that reaches the
    highest value of [score]. *)
Definition first_highest (score : scores -> Z) (cands : score_table)
    (sp : Z) : Prop :=
  exists before sc after,
    cands = (before ++ (sp, sc) :: after)%list
    /\ (forall e, In e before -> score (snd e) < score sc)
    /\ (forall e, In e after -> score (snd e) <= score sc).

(** A reply that is not a usable success. *)
Definition failed (r : reply) : bool :=
  match r with
  | Response 200 (Some _) => false
  | _ => true
  end.

(** Both role tokens occur in a refined text. *)
Definition has_both_roles (refined : string) : bool :=
  Py.contains "AGENT" refined && Py.contains "CUSTOMER" refined.

End Spec.

(** ** Auxiliary notions used in the proofs *)

(** The effect of a scoring pass on one entry: both tallies grow. *)
Definition shift (dc da : Z) (sc : scores) : scores :=
  mkScores (customer sc + dc) (agent sc + da).

(** [c] is not among the keys [ks]. *)
Definition absent_from (ks : list Z) (c : Z) : bool :=
  negb (existsb (Z.eqb c) ks).

(** Entries with clear customer signals, and with clear agent signals. *)
Definition customer_leaning (e : Z * scores) : bool :=
  customer (snd e) >? agent (snd e).

Definition agent_leaning (e : Z * scores) : bool :=
  agent (snd e) >? customer (snd e).

(** The key of the first entry satisfying [p]. *)
Definition first_key (p : Z * scores -> bool) (t : score_table) : option Z :=
  option_map fst (find p t).

(** [likely] unless it is still [None]. *)
Definition or_else (likely other : option Z) : option Z :=
  match likely with Some _ => likely | None => other end.

(** ** Sample transcripts *)

Module Examples.

(** A short service call between two speakers. *)
Definition service_call : transcript :=
  [ mkSegment 1 "0:00:01" "Thank you for calling, how can I help?";
    mkSegment 2 "0:00:05" "I lost my card";
    mkSegment 1 "0:00:09" "May I have your account number?";
    mkSegment 2 "0:00:12" "Sure, my account is 1234." ].

(** Two callers with customer wording; the higher label speaks first. *)
Definition two_customers : transcript :=
  [ mkSegment 2 "0:00:01" "I lost my card";
    mkSegment 1 "0:00:04" "I need a refund" ].

(** Two speakers with the same evidence; the higher label speaks first. *)
Definition tied_pair : transcript :=
  [ mkSegment 2 "0:00:01" "lost";
    mkSegment 1 "0:00:03" "lost" ].

(** Three speakers, no lexical evidence; the highest label opens and
    closes. *)
Definition three_speakers : transcript :=
  [ mkSegment 3 "0:00:00" "hello";
    mkSegment 2 "0:00:02" "yes";
    mkSegment 1 "0:00:03" "ok";
    mkSegment 3 "0:00:04" "bye" ].

(** A service that answers every request with status 500. *)
Definition always_500 : nat -> request -> reply :=
  fun _ _ => Response 500 None.

(** A service whose first answer names one role only and which then fails
    with status 500. *)
Definition one_role_then_500 : nat -> request -> reply :=
  fun n _ =>
    match n with
    | O => Response 200 (Some "AGENT at 0:00:00: hello")
    | _ => Response 500 None
    end.

(** A service whose first answer names one role only and whose second
    answer names none. *)
Definition one_role_then_plain : nat -> request -> reply :=
  fun n _ =>
    match n with
    | O => Response 200 (Some "AGENT at 0:00:00: hello")
    | _ => Response 200 (Some "hello yes ok bye")
    end.

(** A service whose first answer names both roles. *)
Definition both_roles : nat -> request -> reply :=
  fun _ _ => Response 200 (Some "AGENT at 0:00:00: hello
CUSTOMER at 0:00:02: yes").

(** A transcriber segment that runs past the end of a ten-second file. *)
Definition overshooting : Embedding.whisper_segment :=
  Embedding.mkWhisperSegment 8.5%float 12.25%float.

(** An audio reader that raises on every span. *)
Definition unreadable : string -> Embedding.clip
                        -> option (Embedding.ndarray * Z) :=
  fun _ _ => None.

(** A channel average and an embedding model standing idle. *)
Definition idle : Embedding.ndarray -> option Embedding.ndarray :=
  fun x => Some x.

End Examples.

(** No character of [s] separates words. *)
Fixpoint no_space (s : string) : bool :=
  match s with
  | EmptyString => true
  | String c r => negb (Py.is_space c) && no_space r
  end.

(** ** Further auxiliary notions and samples *)

(** Two segments that the scorer cannot tell apart: the same speaker and
    the same text up to the case of the letters. *)
Definition same_evidence (s s' : segment) : Prop :=
  speaker_num s = speaker_num s'
  /\ Py.lower (text s) = Py.lower (text s').

Module MoreExamples.

(** One speaker only. *)
Definition monologue : transcript :=
  [ mkSegment 1 "0:00:00" "hello";
    mkSegment 1 "0:00:03" "I lost my card" ].

(** [Examples.service_call] typed in capitals, with other timestamps. *)
Definition service_call_capitals : transcript :=
  [ mkSegment 1 "0:10:01" "THANK YOU FOR CALLING, HOW CAN I HELP?";
    mkSegment 2 "0:10:05" "I LOST MY CARD";
    mkSegment 1 "0:10:09" "MAY I HAVE YOUR ACCOUNT NUMBER?";
    mkSegment 2 "0:10:12" "SURE, MY ACCOUNT IS 1234." ].

End MoreExamples.

(** Words spoken by the cluster [c]: [len(text.split())] summed over its
    segments. *)
Definition words_of (c : Z) (td : transcript) : Z :=
  Spec.sum_Z
    (map (fun seg => Z.of_nat (List.length (Py.split (text seg))))
       (filter (Spec.in_cluster c) td)).

(** Entries in ascending order of their count. *)
Definition by_count (x y : Z * Z) : Prop := snd x <= snd y.

(** A transcript and a score table under a renumbering [f] of the
    speakers. *)
Definition renumber (f : Z -> Z) (seg : segment) : segment :=
  mkSegment (f (speaker_num seg)) (start_time seg) (text seg).

Definition renumber_table (f : Z -> Z) (t : score_table) : score_table :=
  map (fun e => (f (fst e), snd e)) t.

Definition renumber_roles (f : Z -> Z) (a : assignment) : assignment :=
  (option_map f (fst a), option_map f (snd a)).

(** ** Data preparation in [run_diarization] and the plain rendering *)

(** [s.lstrip()] and [s.strip()] on ASCII text. *)
Fixpoint lstrip (s : string) : string :=
  match s with
  | EmptyString => EmptyString
  | String c r => if Py.is_space c then lstrip r else s
  end.

Fixpoint rstrip (s : string) : string :=
  match s with
  | EmptyString => EmptyString
  | String c r =>
      match rstrip r with
      | EmptyString => if Py.is_space c then EmptyString else String c EmptyString
      | r' => String c r'
      end
  end.

Definition strip (s : string) : string := rstrip (lstrip s).

(** One entry of [transcript_data] as [run_diarization] appends it, from
    the cluster label of the segment, its formatted start and its raw
    text. *)
Definition prepare_entry (label : Z) (formatted_start raw_text : string)
    : segment :=
  mkSegment (label + 1) formatted_start (strip raw_text).

(** The loop over [enumerate(segments)]: [labels[i]] raises when the
    labels run out, which gives [None]. *)
Fixpoint prepare (labels : list Z) (segments : list (string * string))
    {struct segments} : option transcript :=
  match segments with
  | [] => Some []
  | (formatted_start, raw_text) :: segments' =>
      match labels with
      | [] => None
      | label :: labels' =>
          option_map (cons (prepare_entry label formatted_start raw_text))
            (prepare labels' segments')
      end
  end.

(** [speaker != prev_speaker], with [prev_speaker] possibly [None]. *)
Definition speaker_changed (sp : string) (prev_speaker : option string)
    : bool :=
  match prev_speaker with
  | None => true
  | Some p => negb (String.eqb sp p)
  end.

(** One iteration of the rendering loop of [process_files_from_csv] that
    runs when the refinement is switched off; the state is
    [transcript_lines] and [prev_speaker]. *)
Definition plain_step (st : list string * option string) (seg : segment)
    : list string * option string :=
  let '(transcript_lines, prev_speaker) := st in
  let sp := speaker seg in
  let transcript_lines :=
    if speaker_changed sp prev_speaker
    then (transcript_lines
          ++ [nl ++ sp ++ " at " ++ start_time seg ++ nl]%string)%list
    else transcript_lines in
  ((transcript_lines ++ [text seg ++ " "]%string)%list, Some sp).

Definition plain_lines (td : transcript) : list string :=
  fst (fold_left plain_step td ([], None)).

Definition plain_transcript (td : transcript) : string :=
  Py.join nl (plain_lines td).

(** The number of turns of a transcript: the segments whose speaker is not
    the speaker of the segment before. *)
Fixpoint turns_after (prev : option Z) (td : transcript) : nat :=
  match td with
  | [] => O
  | seg :: rest =>
      ((if neq_opt (speaker_num seg) prev then 1 else 0)
       + turns_after (Some (speaker_num seg)) rest)%nat
  end.

Definition turns (td : transcript) : nat := turns_after None td.

(** ** Output paths of [process_files_from_csv] ([os.path] on POSIX) *)

Module PosixPath.

(** [s.rfind(c)] for a single character: the last index that holds [c],
    [-1] when none does.  [i] is the index of the head of [s], [found] the
    last index seen so far. *)
Fixpoint rfind_from (c : ascii) (s : string) (i found : Z) : Z :=
  match s with
  | EmptyString => found
  | String d r => rfind_from c r (i + 1) (if Ascii.eqb d c then i else found)
  end.

Definition rfind (c : ascii) (s : string) : Z := rfind_from c s 0 (-1).

(** [s[:n]] and [s[n:]] *)
Fixpoint take (n : nat) (s : string) : string :=
  match n, s with
  | S n', String c r => String c (take n' r)
  | _, _ => EmptyString
  end.

Fixpoint drop (n : nat) (s : string) : string :=
  match n, s with
  | S n', String _ r => drop n' r
  | _, _ => s
  end.

(** [s[i:i+1] != c] *)
Definition differs_at (c : ascii) (s : string) (i : nat) : bool :=
  match String.get i s with
  | Some d => negb (Ascii.eqb d c)
  | None => true
  end.

(** [os.path.splitext(p)]: the extension starts at the last dot, provided
    that dot comes after the last slash and after some character of the
    final component that is not a dot. *)
Definition splitext (p : string) : string * string :=
  let sepIndex := rfind "/" p in
  let dotIndex := rfind "." p in
  if (dotIndex >? sepIndex)
     && existsb (differs_at "." p)
          (seq (Z.to_nat (sepIndex + 1))
               (Z.to_nat (dotIndex - (sepIndex + 1))))
  then (take (Z.to_nat dotIndex) p, drop (Z.to_nat dotIndex) p)
  else (p, EmptyString).

(** [os.path.join(a, b)] *)
Definition join (a b : string) : string :=
  if Py.startswith "/" b then b
  else if String.eqb a "" || Py.endswith "/" a then a ++ b
  else a ++ "/" ++ b.

End PosixPath.

(** [output_file] as computed for one row of the CSV. *)
Definition output_file (output_dir filename : string) : string :=
  let base_name := fst (PosixPath.splitext filename) in
  PosixPath.join output_dir (base_name ++ ".txt").

(** [c] does not occur in [s]. *)
Fixpoint lacks (c : ascii) (s : string) : bool :=
  match s with
  | EmptyString => true
  | String d r => negb (Ascii.eqb d c) && lacks c r
  end.

(** The final component of [stem] holds a character that is not a dot. *)
Definition names_a_file (stem : string) : Prop :=
  exists i : nat,
    PosixPath.rfind "/" stem < Z.of_nat i
    /\ (i < String.length stem)%nat
    /\ PosixPath.differs_at "." stem i = true.

(** ** The batch driver [process_files_from_csv] *)

(** A row of the CSV file. *)
Record row : Type := mkRow {
  filename : string;
  file_path : string
}.

(** What is followed through a batch: the requests sent to the service and
    the transcript files written, both oldest first.  Log entries and the
    temporary audio file of [run_diarization] are not part of it. *)
Record world : Type := mkWorld {
  requests : list request;
  files : list (string * string)
}.

Section Batch.

Variable refiner : nat -> request -> reply.

(** [os.path.exists] *)
Variable path_exists : string -> bool.

(** The transcript returned by [run_diarization] on a file with the loaded
    models, [None] when it raises. *)
Variable diarize : string -> option transcript.

(** Whether opening and writing the output file goes through. *)
Variable writable : string -> bool.

(** The body of the loop over the rows. *)
Definition process_row (output_dir : string) (use_llm : bool)
    (llm_endpoint : string) (w : world) (r : row) : world :=
  if negb (path_exists (file_path r)) then w          (* [continue] *)
  else
    let output := output_file output_dir (filename r) in
    match diarize (file_path r) with
    | None => w                                        (* logged *)
    | Some transcript_data =>
        let '(final_transcript, sent) :=
          if use_llm
          then process_transcript_with_llm refiner transcript_data
                 llm_endpoint (requests w)
          else (plain_transcript transcript_data, requests w) in
        if writable output
        then mkWorld sent (files w ++ [(output, final_transcript)])%list
        else mkWorld sent (files w)                    (* logged *)
    end.

Definition process_rows (output_dir : string) (use_llm : bool)
    (llm_endpoint : string) (rows : list row) (w : world) : world :=
  fold_left (process_row output_dir use_llm llm_endpoint) rows w.

(** Whether [os.makedirs(output_dir, exist_ok=True)] goes through. *)
Variable makedirs_ok : string -> bool.

(** The function from the reading of the CSV on: [csv] is [None] when the
    file cannot be read or lacks one of the two columns. *)
Definition process_files_from_csv (csv : option (list row))
    (output_dir : string) (use_llm : bool) (llm_endpoint : string)
    : world :=
  match csv with
  | None => mkWorld [] []
  | Some rows =>
      if makedirs_ok output_dir
      then process_rows output_dir use_llm llm_endpoint rows (mkWorld [] [])
      else mkWorld [] []
  end.

End Batch.


(** Each segment with the speaker number of the segment before it, if
    any. *)
Definition with_previous (td : transcript) : list (option Z * segment) :=
  combine (None :: map (fun seg => Some (speaker_num seg)) td) td.

(** What [os.path.join] puts between a directory and a relative name. *)
Definition separator (output_dir : string) : string :=
  if String.eqb output_dir "" || Py.endswith "/" output_dir then "" else "/".

(** * Properties *)

Local Open Scope list_scope.

(** ** Dictionaries *)

Section DictFacts.
Context {V : Type}.
Implicit Types (d : Dict.t V) (k c : Z).

Lemma get_adjust (f : V -> V) k c d :
  Dict.get c (Dict.adjust f k d)
  = if c =? k then option_map f (Dict.get c d) else Dict.get c d.
Proof.
  induction d as [|[k' v] d IH]; simpl.
  - now destruct (c =? k).
  - destruct (k =? k') eqn:Ek; simpl.
    + apply Z.eqb_eq in Ek; subst k'.
      now destruct (c =? k).
    + destruct (c =? k') eqn:Ec.
      * apply Z.eqb_eq in Ec; subst k'.
        rewrite Z.eqb_sym in Ek. now rewrite Ek.
      * exact IH.
Qed.

Lemma keys_adjust (f : V -> V) k d :
  Dict.keys (Dict.adjust f k d) = Dict.keys d.
Proof.
  induction d as [|[k' v] d IH]; simpl; [reflexivity|].
  destruct (k =? k'); simpl; [reflexivity|].
  f_equal. exact IH.
Qed.

Lemma get_app c d d' :
  Dict.get c (d ++ d')
  = match Dict.get c d with Some v => Some v | None => Dict.get c d' end.
Proof.
  induction d as [|[k' v] d IH]; simpl; [reflexivity|].
  now destruct (c =? k').
Qed.

Lemma get_add_if_absent k (v : V) c d :
  Dict.get c (Dict.add_if_absent k v d)
  = match Dict.get c d with
    | Some x => Some x
    | None => if c =? k then Some v else None
    end.
Proof.
  unfold Dict.add_if_absent, Dict.mem.
  destruct (Dict.get k d) eqn:Ek.
  - destruct (Dict.get c d) eqn:Ec; [reflexivity|].
    destruct (c =? k) eqn:E; [|reflexivity].
    apply Z.eqb_eq in E; subst. congruence.
  - rewrite get_app. simpl. reflexivity.
Qed.

Lemma get_In_keys c d :
  In c (Dict.keys d) <-> Dict.get c d <> None.
Proof.
  induction d as [|[k' v] d IH]; simpl.
  - split; [tauto | congruence].
  - destruct (c =? k') eqn:E.
    + apply Z.eqb_eq in E. split; [congruence | auto].
    + apply Z.eqb_neq in E. rewrite <- IH. split.
      * intros [H|H]; [congruence | exact H].
      * auto.
Qed.

Lemma get_Some_In c v d : Dict.get c d = Some v -> In (c, v) d.
Proof.
  induction d as [|[k' v'] d IH]; simpl; [discriminate|].
  destruct (c =? k') eqn:E.
  - apply Z.eqb_eq in E. intros [= ->]. left. now subst.
  - auto.
Qed.

Lemma In_get_NoDup c v d :
  NoDup (Dict.keys d) -> In (c, v) d -> Dict.get c d = Some v.
Proof.
  induction d as [|[k' v'] d IH]; simpl; [tauto|].
  intros Hnd [H|H].
  - injection H as -> ->. now rewrite Z.eqb_refl.
  - inversion Hnd as [|? ? Hnotin Hnd']; subst.
    destruct (c =? k') eqn:E.
    + apply Z.eqb_eq in E; subst k'.
      exfalso. apply Hnotin.
      change c with (fst (c, v)). now apply in_map.
    + auto.
Qed.

Lemma keys_add_if_absent k (v : V) d :
  Dict.keys (Dict.add_if_absent k v d)
  = if Dict.mem k d then Dict.keys d else (Dict.keys d ++ [k])%list.
Proof.
  unfold Dict.add_if_absent.
  destruct (Dict.mem k d); [reflexivity|].
  unfold Dict.keys. now rewrite map_app.
Qed.

Lemma mem_In_keys k d : Dict.mem k d = true <-> In k (Dict.keys d).
Proof.
  rewrite get_In_keys. unfold Dict.mem.
  destruct (Dict.get k d); split; congruence.
Qed.

End DictFacts.

(** ** Speaker labels *)

Lemma split_from_no_space s w :
  no_space s = true -> Py.split_from (Some w) s = [(w ++ s)%string].
Proof.
  revert w. induction s as [|c r IH]; intros w Hs; simpl.
  - f_equal. clear. induction w; simpl; [reflexivity | now f_equal].
  - simpl in Hs. apply andb_true_iff in Hs as [Hc Hr].
    apply negb_true_iff in Hc. rewrite Hc, (IH _ Hr). f_equal.
    clear. induction w; simpl; [reflexivity | now f_equal].
Qed.

Lemma split_no_space c r :
  no_space (String c r) = true -> Py.split (String c r) = [String c r].
Proof.
  intros Hs. unfold Py.split. simpl in *.
  apply andb_true_iff in Hs as [Hc Hr]. apply negb_true_iff in Hc.
  rewrite Hc. now rewrite (split_from_no_space _ _ Hr).
Qed.

Lemma no_space_digits d : no_space (NilEmpty.string_of_uint d) = true.
Proof. induction d; simpl; auto. Qed.

Lemma digits_nonempty d :
  d <> Decimal.Nil -> NilEmpty.string_of_uint d <> EmptyString.
Proof. destruct d; simpl; congruence. Qed.

Lemma str_of_int_token n :
  exists c r, Py.str_of_int n = String c r /\ no_space (String c r) = true.
Proof.
  unfold Py.str_of_int.
  destruct n as [|p|p]; simpl.
  - now exists "0"%char, EmptyString.
  - unfold NilZero.string_of_uint.
    pose proof (DecimalPos.Unsigned.to_uint_nonnil p) as Hp.
    pose proof (no_space_digits (Pos.to_uint p)) as Hs.
    pose proof (digits_nonempty _ Hp) as Hne.
    destruct (Pos.to_uint p) eqn:E; try congruence;
      destruct (NilEmpty.string_of_uint _) as [|c r] eqn:E';
      try congruence; now exists c, r.
  - unfold NilZero.string_of_uint.
    pose proof (DecimalPos.Unsigned.to_uint_nonnil p) as Hp.
    pose proof (no_space_digits (Pos.to_uint p)) as Hs.
    destruct (Pos.to_uint p) eqn:E; try congruence;
      eexists _, _; (split; [reflexivity|]); exact Hs.
Qed.

(** Reading back the label written for a segment gives its speaker
    number: the record field [speaker_num] is what the code obtains from
    the ["speaker"] text. *)
Lemma speaker_num_of_speaker seg :
  speaker_num_of (speaker seg) = Some (speaker_num seg).
Proof.
  unfold speaker_num_of, speaker.
  destruct (str_of_int_token (speaker_num seg)) as (c & r & E & Hs).
  assert (Hsplit : Py.split ("SPEAKER " ++ Py.str_of_int (speaker_num seg))
                   = ["SPEAKER"; Py.str_of_int (speaker_num seg)]%string).
  { rewrite E. pose proof (split_no_space _ _ Hs) as H.
    unfold Py.split in *. simpl in *. now rewrite H. }
  rewrite Hsplit. cbn [rev app].
  unfold Py.str_of_int.
  rewrite NilZero.isi.
  - simpl. f_equal. apply DecimalZ.of_to.
  - destruct (speaker_num seg); simpl; try discriminate.
    intros [= H]. now apply (DecimalPos.Unsigned.to_uint_nonnil p).
  - destruct (speaker_num seg); simpl; try discriminate.
    intros [= H]. now apply (DecimalPos.Unsigned.to_uint_nonnil p).
Qed.

(** ** RoleScorer *)

Lemma shift_0 sc : shift 0 0 sc = sc.
Proof. destruct sc; unfold shift; simpl. f_equal; lia. Qed.

Lemma shift_shift a b a' b' sc :
  shift a' b' (shift a b sc) = shift (a + a') (b + b') sc.
Proof. unfold shift; simpl. f_equal; lia. Qed.

Lemma option_map_shift_0 (o : option scores) : option_map (shift 0 0) o = o.
Proof. destruct o; simpl; [now rewrite shift_0 | reflexivity]. Qed.

Lemma option_map_shift_shift a b a' b' (o : option scores) :
  option_map (shift a' b') (option_map (shift a b) o)
  = option_map (shift (a + a') (b + b')) o.
Proof. destruct o; simpl; [now rewrite shift_shift | reflexivity]. Qed.

Lemma get_add_customer k w c t :
  Dict.get c (add_customer k w t)
  = option_map (shift (if c =? k then w else 0) 0) (Dict.get c t).
Proof.
  unfold add_customer. rewrite get_adjust.
  destruct (c =? k).
  - destruct (Dict.get c t) as [sc|]; simpl; [|reflexivity].
    unfold shift. do 2 f_equal. lia.
  - now rewrite option_map_shift_0.
Qed.

Lemma get_add_agent k w c t :
  Dict.get c (add_agent k w t)
  = option_map (shift 0 (if c =? k then w else 0)) (Dict.get c t).
Proof.
  unfold add_agent. rewrite get_adjust.
  destruct (c =? k).
  - destruct (Dict.get c t) as [sc|]; simpl; [|reflexivity].
    unfold shift. do 2 f_equal. lia.
  - now rewrite option_map_shift_0.
Qed.

Lemma count_if_cons {A : Type} (p : A -> bool) x l :
  Spec.count_if p (x :: l) = (if p x then 1 else 0) + Spec.count_if p l.
Proof.
  unfold Spec.count_if. simpl. destruct (p x); cbn [List.length]; lia.
Qed.

Lemma count_if_nonneg {A : Type} (p : A -> bool) l : 0 <= Spec.count_if p l.
Proof. unfold Spec.count_if. lia. Qed.

(** A loop that adds [w] customer points per element satisfying [p]. *)
Lemma get_fold_add_customer {A : Type} (p : A -> bool) k w (l : list A) c t :
  Dict.get c
    (fold_left (fun t x => if p x then add_customer k w t else t) l t)
  = option_map (shift (if c =? k then w * Spec.count_if p l else 0) 0)
      (Dict.get c t).
Proof.
  revert t. induction l as [|x l IH]; intros t; simpl.
  - replace (w * Spec.count_if p []) with 0 by (unfold Spec.count_if; simpl; lia).
    destruct (c =? k); now rewrite option_map_shift_0.
  - rewrite IH, count_if_cons. destruct (p x).
    + rewrite get_add_customer, option_map_shift_shift.
      destruct (c =? k); f_equal; f_equal; lia.
    + destruct (c =? k); f_equal; f_equal; lia.
Qed.

Lemma get_fold_add_agent {A : Type} (p : A -> bool) k w (l : list A) c t :
  Dict.get c
    (fold_left (fun t x => if p x then add_agent k w t else t) l t)
  = option_map (shift 0 (if c =? k then w * Spec.count_if p l else 0))
      (Dict.get c t).
Proof.
  revert t. induction l as [|x l IH]; intros t; simpl.
  - replace (w * Spec.count_if p []) with 0 by (unfold Spec.count_if; simpl; lia).
    destruct (c =? k); now rewrite option_map_shift_0.
  - rewrite IH, count_if_cons. destruct (p x).
    + rewrite get_add_agent, option_map_shift_shift.
      destruct (c =? k); f_equal; f_equal; lia.
    + destruct (c =? k); f_equal; f_equal; lia.
Qed.

Lemma get_score_segment t seg c :
  Dict.get c (score_segment t seg)
  = option_map
      (shift (if Spec.in_cluster c seg then Spec.lexical_customer seg else 0)
             (if Spec.in_cluster c seg then Spec.lexical_agent seg else 0))
      (Dict.get c t).
Proof.
  unfold score_segment, Spec.in_cluster, Spec.lexical_customer,
    Spec.lexical_agent.
  cbv zeta.
  rewrite get_fold_add_agent, get_fold_add_agent,
    get_fold_add_customer, get_fold_add_customer.
  rewrite !option_map_shift_shift.
  rewrite (Z.eqb_sym (speaker_num seg) c).
  destruct (c =? speaker_num seg); f_equal; f_equal; lia.
Qed.

Lemma get_text_pass td t c :
  Dict.get c (text_pass td t)
  = option_map
      (shift
         (Spec.sum_Z (map Spec.lexical_customer (filter (Spec.in_cluster c) td)))
         (Spec.sum_Z (map Spec.lexical_agent (filter (Spec.in_cluster c) td))))
      (Dict.get c t).
Proof.
  unfold text_pass. revert t.
  induction td as [|seg td IH]; intros t; simpl.
  - now rewrite option_map_shift_0.
  - rewrite IH, get_score_segment, option_map_shift_shift.
    destruct (Spec.in_cluster c seg); simpl; f_equal; f_equal; lia.
Qed.

Lemma get_position_pass td t c :
  Dict.get c (position_pass td t)
  = option_map (shift 0 (Spec.positional_bonus c td)) (Dict.get c t).
Proof.
  unfold position_pass, Spec.positional_bonus, Spec.in_cluster.
  destruct td as [|first rest].
  - now rewrite option_map_shift_0.
  - rewrite !get_add_agent, option_map_shift_shift.
    rewrite (Z.eqb_sym (speaker_num first) c),
      (Z.eqb_sym (speaker_num (last (first :: rest) first)) c).
    f_equal.
Qed.

Lemma lower_char_question c :
  Ascii.eqb "?" (Py.lower_char c) = Ascii.eqb "?" c.
Proof.
  destruct c as [[] [] [] [] [] [] [] []]; reflexivity.
Qed.

Lemma eqb_question_lower s :
  String.eqb "?" (Py.lower s) = String.eqb "?" s.
Proof.
  destruct s as [|c r]; [reflexivity|].
  cbn [Py.lower String.eqb]. rewrite lower_char_question.
  now destruct r.
Qed.

(** Lowercasing does not change whether a text ends with a question
    mark. *)
Lemma endswith_question_lower s :
  Py.endswith "?" (Py.lower s) = Py.endswith "?" s.
Proof.
  induction s as [|c r IH]; [reflexivity|].
  change (Py.lower (String c r)) with (String (Py.lower_char c) (Py.lower r)).
  cbn [Py.endswith].
  change (String (Py.lower_char c) (Py.lower r)) with (Py.lower (String c r)).
  now rewrite eqb_question_lower, IH.
Qed.

Lemma get_question_pass td t c :
  Dict.get c (question_pass td t)
  = option_map
      (shift
         (Spec.count_if
            (fun p => Spec.question_pair p && Spec.in_cluster c (snd p))
            (Spec.consecutive_pairs td))
         (Spec.count_if
            (fun p => Spec.question_pair p && Spec.in_cluster c (fst p))
            (Spec.consecutive_pairs td)))
      (Dict.get c t).
Proof.
  revert t. induction td as [|cur td IH]; intros t.
  - simpl. now rewrite option_map_shift_0.
  - destruct td as [|next rest].
    + simpl. now rewrite option_map_shift_0.
    + change (question_pass (cur :: next :: rest) t)
        with (question_pass (next :: rest)
                (if Py.endswith "?" (Py.lower (text cur))
                    && negb (speaker_num cur =? speaker_num next)
                 then add_customer (speaker_num next) 1
                        (add_agent (speaker_num cur) 1 t)
                 else t)).
      rewrite IH.
      change (Spec.consecutive_pairs (cur :: next :: rest))
        with ((cur, next) :: Spec.consecutive_pairs (next :: rest)).
      rewrite !count_if_cons.
      unfold Spec.question_pair, Spec.in_cluster. cbn [fst snd].
      rewrite endswith_question_lower, andb_comm.
      destruct (negb (speaker_num cur =? speaker_num next)
                && Py.endswith "?" (text cur)).
      * rewrite get_add_customer, get_add_agent, !option_map_shift_shift.
        rewrite (Z.eqb_sym (speaker_num next) c),
          (Z.eqb_sym (speaker_num cur) c).
        cbn [andb].
        destruct (c =? speaker_num next), (c =? speaker_num cur);
          f_equal; f_equal; lia.
      * cbn [andb]. f_equal.
Qed.

Lemma get_init_scores_from td t0 c :
  Dict.get c
    (fold_left
       (fun t seg => Dict.add_if_absent (speaker_num seg) (mkScores 0 0) t)
       td t0)
  = match Dict.get c t0 with
    | Some sc => Some sc
    | None =>
        if existsb (Spec.in_cluster c) td then Some (mkScores 0 0) else None
    end.
Proof.
  revert t0. induction td as [|seg td IH]; intros t0; simpl.
  - now destruct (Dict.get c t0).
  - rewrite IH, get_add_if_absent. unfold Spec.in_cluster at 2.
    rewrite (Z.eqb_sym (speaker_num seg) c).
    destruct (Dict.get c t0); [reflexivity|].
    destruct (c =? speaker_num seg); simpl; [reflexivity|].
    reflexivity.
Qed.

Lemma get_init_scores td c :
  Dict.get c (init_scores td)
  = if existsb (Spec.in_cluster c) td then Some (mkScores 0 0) else None.
Proof. unfold init_scores. now rewrite get_init_scores_from. Qed.

(** The four rules, pointwise: the entry of every cluster of the
    transcript holds the two reference scores, and no other key has an
    entry. *)
Lemma get_speaker_scores td c :
  Dict.get c (speaker_scores td) = Spec.reference_scores td c.
Proof.
  unfold speaker_scores, Spec.reference_scores.
  rewrite get_question_pass, get_position_pass, get_text_pass,
    get_init_scores, !option_map_shift_shift.
  destruct (existsb (Spec.in_cluster c) td); simpl; [|reflexivity].
  unfold shift, Spec.customer_score, Spec.agent_score. simpl.
  f_equal. f_equal; lia.
Qed.

(** *** The keys of the score table *)

Lemma keys_add_customer k w t : Dict.keys (add_customer k w t) = Dict.keys t.
Proof. apply keys_adjust. Qed.

Lemma keys_add_agent k w t : Dict.keys (add_agent k w t) = Dict.keys t.
Proof. apply keys_adjust. Qed.

Lemma keys_fold_preserved {A : Type} (step : score_table -> A -> score_table)
    (l : list A) :
  (forall t x, Dict.keys (step t x) = Dict.keys t) ->
  forall t, Dict.keys (fold_left step l t) = Dict.keys t.
Proof.
  intros Hstep. induction l as [|x l IH]; intros t; simpl; [reflexivity|].
  now rewrite IH, Hstep.
Qed.

Lemma keys_score_segment t seg :
  Dict.keys (score_segment t seg) = Dict.keys t.
Proof.
  unfold score_segment. cbv zeta.
  repeat (rewrite keys_fold_preserved;
          [| intros t' x;
             match goal with |- context [if ?b then _ else _] => destruct b end;
             auto using keys_add_customer, keys_add_agent ]).
  reflexivity.
Qed.

Lemma keys_text_pass td t : Dict.keys (text_pass td t) = Dict.keys t.
Proof. apply keys_fold_preserved, keys_score_segment. Qed.

Lemma keys_position_pass td t : Dict.keys (position_pass td t) = Dict.keys t.
Proof.
  destruct td; simpl; [reflexivity|]. now rewrite !keys_add_agent.
Qed.

Lemma keys_question_pass td t : Dict.keys (question_pass td t) = Dict.keys t.
Proof.
  revert t. induction td as [|cur td IH]; intros t; [reflexivity|].
  destruct td as [|next rest]; [reflexivity|].
  cbn [question_pass] in *. rewrite IH.
  destruct (_ && _); [|reflexivity].
  now rewrite keys_add_customer, keys_add_agent.
Qed.

Lemma filter_filter {A : Type} (p q : A -> bool) l :
  filter p (filter q l) = filter (fun x => q x && p x) l.
Proof.
  induction l as [|x l IH]; simpl; [reflexivity|].
  destruct (q x); simpl; [destruct (p x)|]; now rewrite IH.
Qed.

Lemma keys_init_scores_from td t0 :
  Dict.keys
    (fold_left
       (fun t seg => Dict.add_if_absent (speaker_num seg) (mkScores 0 0) t)
       td t0)
  = Dict.keys t0
    ++ filter (absent_from (Dict.keys t0))
         (Spec.order_of_appearance (map speaker_num td)).
Proof.
  revert t0. induction td as [|seg td IH]; intros t0; simpl.
  - now rewrite app_nil_r.
  - rewrite IH, keys_add_if_absent.
    destruct (Dict.mem (speaker_num seg) t0) eqn:Hmem.
    + assert (Hin : absent_from (Dict.keys t0) (speaker_num seg) = false).
      { unfold absent_from. apply negb_false_iff, existsb_exists.
        exists (speaker_num seg). split; [|apply Z.eqb_refl].
        now apply mem_In_keys. }
      rewrite Hin, filter_filter. f_equal.
      apply filter_ext_in. intros c _.
      destruct (c =? speaker_num seg) eqn:E; [|reflexivity].
      apply Z.eqb_eq in E; subst c. now rewrite Hin.
    + assert (Hout : absent_from (Dict.keys t0) (speaker_num seg) = true).
      { unfold absent_from. apply negb_true_iff.
        destruct (existsb _ _) eqn:E; [|reflexivity].
        apply existsb_exists in E as [y [Hy Heq]].
        apply Z.eqb_eq in Heq; subst y.
        apply mem_In_keys in Hy. congruence. }
      rewrite Hout, <- app_assoc. simpl. do 2 f_equal.
      rewrite filter_filter. apply filter_ext. intros c.
      unfold absent_from. rewrite existsb_app. simpl.
      rewrite orb_false_r, negb_orb. apply andb_comm.
Qed.

(** The entries of the score table are the clusters of the transcript, in
    order of first appearance. *)
Lemma keys_speaker_scores td :
  Dict.keys (speaker_scores td) = Spec.clusters td.
Proof.
  unfold speaker_scores.
  rewrite keys_question_pass, keys_position_pass, keys_text_pass.
  unfold init_scores. rewrite keys_init_scores_from. simpl.
  unfold Spec.clusters.
  rewrite (filter_ext _ (fun _ => true)) by reflexivity.
  clear. induction (Spec.order_of_appearance (map speaker_num td)); simpl;
    [reflexivity | now f_equal].
Qed.

Lemma In_order_of_appearance c ids :
  In c (Spec.order_of_appearance ids) <-> In c ids.
Proof.
  induction ids as [|x ids IH]; simpl; [tauto|].
  rewrite filter_In, IH.
  destruct (Z.eq_dec x c) as [->|Hne]; [tauto|].
  assert ((c =? x) = false) as -> by (apply Z.eqb_neq; congruence).
  simpl. tauto.
Qed.

Lemma NoDup_order_of_appearance ids : NoDup (Spec.order_of_appearance ids).
Proof.
  induction ids as [|x ids IH]; simpl; constructor.
  - rewrite filter_In, Z.eqb_refl. simpl. intros [_ H]. discriminate.
  - now apply NoDup_filter.
Qed.

Lemma NoDup_keys_speaker_scores td : NoDup (Dict.keys (speaker_scores td)).
Proof. rewrite keys_speaker_scores. apply NoDup_order_of_appearance. Qed.

Lemma In_clusters c td :
  In c (Spec.clusters td) <-> exists seg, In seg td /\ speaker_num seg = c.
Proof.
  unfold Spec.clusters. rewrite In_order_of_appearance, in_map_iff.
  split; intros [seg H]; exists seg; tauto.
Qed.

Lemma sum_lexical_nonneg (f : segment -> Z) (l : list segment) :
  (forall seg, 0 <= f seg) -> 0 <= Spec.sum_Z (map f l).
Proof.
  intros Hf. induction l as [|seg l IH]; simpl; [lia|].
  specialize (Hf seg). lia.
Qed.

Lemma lexical_customer_nonneg seg : 0 <= Spec.lexical_customer seg.
Proof.
  unfold Spec.lexical_customer. cbv zeta.
  pose proof (count_if_nonneg
    (fun phrase => Py.contains phrase (Py.lower (text seg))) customer_phrases).
  pose proof (count_if_nonneg
    (fun pattern => Re.search pattern (Py.lower (text seg))) customer_patterns).
  lia.
Qed.

Lemma lexical_agent_nonneg seg : 0 <= Spec.lexical_agent seg.
Proof.
  unfold Spec.lexical_agent. cbv zeta.
  pose proof (count_if_nonneg
    (fun phrase => Py.contains phrase (Py.lower (text seg))) agent_phrases).
  pose proof (count_if_nonneg
    (fun pattern => Re.search pattern (Py.lower (text seg))) agent_patterns).
  lia.
Qed.

Lemma customer_score_nonneg c td : 0 <= Spec.customer_score c td.
Proof.
  unfold Spec.customer_score.
  pose proof (sum_lexical_nonneg Spec.lexical_customer
                (filter (Spec.in_cluster c) td) lexical_customer_nonneg).
  pose proof (count_if_nonneg
    (fun p => Spec.question_pair p && Spec.in_cluster c (snd p))
    (Spec.consecutive_pairs td)).
  lia.
Qed.

Lemma agent_score_nonneg c td : 0 <= Spec.agent_score c td.
Proof.
  unfold Spec.agent_score.
  pose proof (sum_lexical_nonneg Spec.lexical_agent
                (filter (Spec.in_cluster c) td) lexical_agent_nonneg).
  pose proof (count_if_nonneg
    (fun p => Spec.question_pair p && Spec.in_cluster c (fst p))
    (Spec.consecutive_pairs td)).
  assert (0 <= Spec.positional_bonus c td).
  { unfold Spec.positional_bonus. destruct td; [lia|].
    destruct (Spec.in_cluster c s), (Spec.in_cluster c (last (s :: td) s)); lia. }
  lia.
Qed.

(** Scores are tallies: no entry of the table is negative. *)
Lemma speaker_scores_nonneg td e :
  In e (speaker_scores td) -> 0 <= customer (snd e) /\ 0 <= agent (snd e).
Proof.
  destruct e as [c sc]. intros Hin.
  apply In_get_NoDup in Hin; [|apply NoDup_keys_speaker_scores].
  rewrite get_speaker_scores in Hin. unfold Spec.reference_scores in Hin.
  destruct (existsb _ _); [|discriminate].
  injection Hin as <-. simpl.
  split; [apply customer_score_nonneg | apply agent_score_nonneg].
Qed.

(** ** RoleResolver *)

(** The primary pass from any starting state: each role still open goes to
    the first entry leaning its way. *)
Lemma primary_pass_from t lc la :
  fold_left primary_step t (lc, la)
  = (or_else lc (first_key customer_leaning t),
     or_else la (first_key agent_leaning t)).
Proof.
  revert lc la. induction t as [|[sp sc] t IH]; intros lc la.
  - simpl. now destruct lc, la.
  - cbn [fold_left primary_step].
    unfold first_key, customer_leaning, agent_leaning in *.
    cbn [find snd].
    destruct (customer sc >? agent sc) eqn:Ec,
             (agent sc >? customer sc) eqn:Ea;
      try (apply Z.gtb_lt in Ec); try (apply Z.gtb_lt in Ea); try lia;
      destruct lc, la; cbn [andb is_none]; rewrite IH; reflexivity.
Qed.

Lemma primary_pass_first t :
  primary_pass t
  = (first_key customer_leaning t, first_key agent_leaning t).
Proof. unfold primary_pass. now rewrite primary_pass_from. Qed.

Lemma first_key_Some p t sp :
  first_key p t = Some sp -> exists sc, In (sp, sc) t /\ p (sp, sc) = true.
Proof.
  unfold first_key. destruct (find p t) as [[k sc]|] eqn:E; [|discriminate].
  intros [= <-]. apply find_some in E. now exists sc.
Qed.

(** Entries holding the other role are skipped by the highest-score loop. *)
Lemma max_loop_candidates score other t st :
  fold_left (max_step score other) t st
  = fold_left (max_step score None) (Spec.candidates other t) st.
Proof.
  revert st. induction t as [|[sp sc] t IH]; intros [m cur]; [reflexivity|].
  cbn [fold_left Spec.candidates filter fst].
  destruct (neq_opt sp other) eqn:E.
  - cbn [fold_left]. unfold Spec.candidates in IH. rewrite <- IH.
    f_equal. unfold max_step. rewrite E. reflexivity.
  - unfold Spec.candidates in IH. rewrite <- IH.
    f_equal. unfold max_step. rewrite E. reflexivity.
Qed.

(** The highest-score loop over a list of candidates, from a running
    maximum [m]: either no candidate beats [m] and the state is unchanged,
    or the state holds the first candidate reaching the highest score. *)
Lemma max_loop_spec score l m cur :
  let st := fold_left (max_step score None) l (m, cur) in
  ((forall e, In e l -> score (snd e) <= m) /\ st = (m, cur))
  \/ (exists before sp sc after,
        l = before ++ (sp, sc) :: after
        /\ st = (score sc, Some sp)
        /\ m < score sc
        /\ (forall e, In e before -> score (snd e) < score sc)
        /\ (forall e, In e after -> score (snd e) <= score sc)).
Proof.
  revert m cur. induction l as [|[sp sc] l IH]; intros m cur.
  - left. split; [intros e []|reflexivity].
  - cbn [fold_left max_step neq_opt eq_opt negb andb].
    destruct (score sc >? m) eqn:E.
    + apply Z.gtb_lt in E.
      destruct (IH (score sc) (Some sp)) as [[Hle Hst]|Hex].
      * right. exists [], sp, sc, l. repeat split; auto.
        intros e [].
      * destruct Hex as (before & sp' & sc' & after & -> & Hst & Hlt & Hb & Ha).
        right. exists ((sp, sc) :: before), sp', sc', after.
        repeat split; auto; try lia.
        intros e [<-|Hin]; [exact Hlt | now apply Hb].
    + assert (Hle : score sc <= m).
      { destruct (Z.gtb_spec (score sc) m); [discriminate | lia]. }
      destruct (IH m cur) as [[Hall Hst]|Hex].
      * left. split; [|exact Hst].
        intros e [<-|Hin]; [exact Hle | now apply Hall].
      * destruct Hex as (before & sp' & sc' & after & -> & Hst & Hlt & Hb & Ha).
        right. exists ((sp, sc) :: before), sp', sc', after.
        repeat split; auto.
        intros e [<-|Hin]; [simpl; lia | now apply Hb].
Qed.

(** What a highest-score loop returns on a table of tallies. *)
Lemma max_by_spec score other t :
  (forall e, In e t -> 0 <= score (snd e)) ->
  match max_by score other t with
  | Some sp => Spec.first_highest score (Spec.candidates other t) sp
  | None => Spec.candidates other t = []
  end.
Proof.
  intros Hnonneg. unfold max_by. rewrite max_loop_candidates.
  destruct (max_loop_spec score (Spec.candidates other t) (-1) None)
    as [[Hall ->]|Hex].
  - simpl. destruct (Spec.candidates other t) as [|e l] eqn:E; [reflexivity|].
    exfalso.
    assert (Hin : In e t).
    { assert (In e (Spec.candidates other t)) by (rewrite E; now left).
      unfold Spec.candidates in H. now apply filter_In in H. }
    specialize (Hnonneg e Hin). specialize (Hall e (or_introl eq_refl)). lia.
  - destruct Hex as (before & sp & sc & after & Hl & -> & _ & Hb & Ha).
    simpl. now exists before, sc, after.
Qed.

Lemma first_highest_candidate score other t sp :
  Spec.first_highest score (Spec.candidates other t) sp ->
  In sp (Dict.keys t) /\ neq_opt sp other = true.
Proof.
  intros (before & sc & after & Hl & _).
  assert (Hin : In (sp, sc) (Spec.candidates other t)).
  { rewrite Hl. apply in_elt. }
  unfold Spec.candidates in Hin. apply filter_In in Hin as [Hin Hneq].
  split; [|exact Hneq].
  change sp with (fst (sp, sc)). now apply in_map.
Qed.

Lemma neq_opt_Some sp x : neq_opt sp (Some x) = true <-> sp <> x.
Proof.
  unfold neq_opt, eq_opt. rewrite negb_true_iff. apply Z.eqb_neq.
Qed.

(** With two different keys in the table, some entry differs from any given
    one. *)
Lemma other_key_exists (t : score_table) x :
  NoDup (Dict.keys t) -> (2 <= List.length (Dict.keys t))%nat ->
  exists e, In e t /\ fst e <> x.
Proof.
  destruct t as [|e1 [|e2 t]]; simpl; try lia.
  intros Hnd _. inversion Hnd as [|? ? Hnotin _]; subst.
  destruct (Z.eq_dec (fst e1) x) as [E|E].
  - exists e2. split; [auto|]. intros E2. apply Hnotin. left. congruence.
  - exists e1. auto.
Qed.

Lemma candidates_None t : Spec.candidates None t = t.
Proof.
  unfold Spec.candidates. induction t as [|e t IH]; simpl; [reflexivity|].
  now rewrite IH.
Qed.

Lemma max_by_Some_other score t x :
  (forall e, In e t -> 0 <= score (snd e)) ->
  NoDup (Dict.keys t) -> (2 <= List.length (Dict.keys t))%nat ->
  exists sp, max_by score (Some x) t = Some sp
             /\ sp <> x /\ In sp (Dict.keys t).
Proof.
  intros Hnn Hnd Hlen.
  pose proof (max_by_spec score (Some x) t Hnn) as Hspec.
  destruct (max_by score (Some x) t) as [sp|].
  - apply first_highest_candidate in Hspec as [Hin Hneq].
    exists sp. apply neq_opt_Some in Hneq. auto.
  - exfalso. destruct (other_key_exists t x Hnd Hlen) as [e [Hin Hne]].
    assert (He : In e (Spec.candidates (Some x) t)).
    { unfold Spec.candidates. apply filter_In. split; [exact Hin|].
      now apply neq_opt_Some. }
    rewrite Hspec in He. destruct He.
Qed.

Lemma max_by_None_other score t :
  (forall e, In e t -> 0 <= score (snd e)) ->
  t <> [] ->
  exists sp, max_by score None t = Some sp /\ In sp (Dict.keys t).
Proof.
  intros Hnn Hne.
  pose proof (max_by_spec score None t Hnn) as Hspec.
  destruct (max_by score None t) as [sp|].
  - apply first_highest_candidate in Hspec as [Hin _]. now exists sp.
  - rewrite candidates_None in Hspec. contradiction.
Qed.

Lemma leaning_apart t c a :
  NoDup (Dict.keys t) ->
  first_key customer_leaning t = Some c ->
  first_key agent_leaning t = Some a ->
  c <> a.
Proof.
  intros Hnd Hc Ha E. subst a.
  apply first_key_Some in Hc as [sc [Hin Hc]].
  apply first_key_Some in Ha as [sc' [Hin' Ha]].
  apply (In_get_NoDup _ _ _ Hnd) in Hin.
  apply (In_get_NoDup _ _ _ Hnd) in Hin'.
  assert (sc = sc') by congruence. subst sc'.
  unfold customer_leaning, agent_leaning in *. simpl in *.
  apply Z.gtb_lt in Hc, Ha. lia.
Qed.

Lemma first_key_In p t sp : first_key p t = Some sp -> In sp (Dict.keys t).
Proof.
  intros H. apply first_key_Some in H as [sc [Hin _]].
  change sp with (fst (sp, sc)). now apply in_map.
Qed.

(** After the first two steps, a transcript with two clusters or more has
    both roles, on different clusters. *)
Lemma after_max_score_two td :
  (2 <= List.length (Spec.clusters td))%nat ->
  exists c a,
    after_max_score td = (Some c, Some a)
    /\ c <> a /\ In c (Spec.clusters td) /\ In a (Spec.clusters td).
Proof.
  intros Hlen. unfold after_max_score. cbv zeta.
  rewrite <- keys_speaker_scores in *.
  pose proof (NoDup_keys_speaker_scores td) as Hnd.
  pose proof (speaker_scores_nonneg td) as Hnn.
  set (t := speaker_scores td) in *.
  assert (Hc : forall e, In e t -> 0 <= customer (snd e))
    by (intros e He; now apply Hnn).
  assert (Ha : forall e, In e t -> 0 <= agent (snd e))
    by (intros e He; now apply Hnn).
  assert (Hne : t <> []) by (destruct t; simpl in Hlen; [lia | discriminate]).
  rewrite primary_pass_first. unfold max_score_fallback.
  destruct (first_key customer_leaning t) as [c|] eqn:Ec,
           (first_key agent_leaning t) as [a|] eqn:Ea; cbn [is_none orb].
  - exists c, a. repeat split; eauto using leaning_apart, first_key_In.
  - destruct (max_by_Some_other agent t c Ha Hnd Hlen) as [a [-> [Hne' Hin]]].
    exists c, a. repeat split; eauto using first_key_In.
  - destruct (max_by_Some_other customer t a Hc Hnd Hlen) as [c [-> [Hne' Hin]]].
    exists c, a. repeat split; eauto using first_key_In.
  - destruct (max_by_None_other customer t Hc Hne) as [c [-> Hin]].
    destruct (max_by_Some_other agent t c Ha Hnd Hlen) as [a [-> [Hne' Hin']]].
    exists c, a. repeat split; auto.
Qed.

(** After the first two steps, only the empty transcript has no role at
    all. *)
Lemma after_max_score_nonempty td :
  td <> [] -> after_max_score td <> (None, None).
Proof.
  intros Htd. unfold after_max_score. cbv zeta.
  pose proof (speaker_scores_nonneg td) as Hnn.
  assert (Hne : speaker_scores td <> []).
  { intros E. apply (f_equal Dict.keys) in E.
    rewrite keys_speaker_scores in E.
    destruct td as [|seg td]; [congruence|]. discriminate. }
  set (t := speaker_scores td) in *.
  assert (Hc : forall e, In e t -> 0 <= customer (snd e))
    by (intros e He; now apply Hnn).
  rewrite primary_pass_first. unfold max_score_fallback.
  destruct (first_key customer_leaning t) as [c|] eqn:Ec,
           (first_key agent_leaning t) as [a|] eqn:Ea; cbn [is_none orb].
  - discriminate.
  - destruct (max_by agent (Some c) t); discriminate.
  - destruct (max_by customer (Some a) t); discriminate.
  - destruct (max_by_None_other customer t Hc Hne) as [c [-> _]].
    discriminate.
Qed.

(** The word-count step changes nothing: it is guarded by both roles being
    unresolved, which happens for the empty transcript only. *)
Lemma resolve_roles_after_max_score td :
  resolve_roles td = after_max_score td.
Proof.
  unfold resolve_roles.
  destruct td as [|seg td]; [reflexivity|].
  pose proof (after_max_score_nonempty (seg :: td)) as H.
  destruct (after_max_score (seg :: td)) as [[c|] [a|]]; try reflexivity.
  exfalso. apply H; [discriminate | reflexivity].
Qed.

(** C7. The score table built by the scorer is the table of the four
    scoring rules: every cluster of the transcript has exactly one entry,
    which holds the customer score and the agent score that the rules
    define (lexicon phrases +1 and patterns +2 on the lowercased text of
    the cluster's segments, +1 agent for the cluster of the first segment
    and +1 agent for the cluster of the last one, and for every consecutive
    pair in different clusters whose earlier text ends with a question mark
    +1 agent to the earlier cluster and +1 customer to the later one); no
    other key has an entry. *)
Theorem speaker_scores_reference td :
  NoDup (Dict.keys (speaker_scores td))
  /\ forall c, Dict.get c (speaker_scores td) = Spec.reference_scores td c.
Proof.
  split; [apply NoDup_keys_speaker_scores | apply get_speaker_scores].
Qed.

(** C2. For every transcript whose segments span at least two distinct
    clusters, the resolver ends with one cluster as customer and a
    different cluster as agent: neither role is left unresolved and the two
    roles never fall on the same cluster. *)
Theorem resolve_roles_two_clusters td :
  (2 <= List.length (Spec.clusters td))%nat ->
  exists c a,
    resolve_roles td = (Some c, Some a)
    /\ c <> a /\ In c (Spec.clusters td) /\ In a (Spec.clusters td).
Proof.
  intros Hlen. rewrite resolve_roles_after_max_score.
  now apply after_max_score_two.
Qed.

Lemma resolve_roles_two_clusters_witness :
  (2 <= List.length (Spec.clusters Examples.service_call))%nat
  /\ exists c a,
       resolve_roles Examples.service_call = (Some c, Some a)
       /\ c <> a
       /\ In c (Spec.clusters Examples.service_call)
       /\ In a (Spec.clusters Examples.service_call).
Proof.
  assert (H : (2 <= List.length (Spec.clusters Examples.service_call))%nat)
    by (vm_compute; lia).
  split; [exact H | exact (resolve_roles_two_clusters _ H)].
Defined.

(** C4, counterexample.  In [two_customers] both clusters lean customer and
    cluster 2 speaks first: the pass visits 2 before 1 and makes 2 the
    customer, where a visit in ascending id order makes it 1. *)
Lemma primary_pass_not_ascending :
  let t := speaker_scores Examples.two_customers in
  Dict.keys t = [2; 1]
  /\ primary_pass t = (Some 2, None)
  /\ Spec.primary_pass_ascending t = (Some 1, None)
  /\ primary_pass t <> Spec.primary_pass_ascending t.
Proof.
  vm_compute. repeat split; discriminate.
Qed.

(** C4, amended.  In the primary pass the clusters are visited in order of
    first appearance in the transcript; the customer is the first visited
    cluster whose customer score exceeds its agent score, the agent the
    first visited cluster whose agent score exceeds its customer score. *)
Theorem primary_pass_first_appearance td :
  let t := speaker_scores td in
  Dict.keys t = Spec.clusters td
  /\ primary_pass t
     = (first_key customer_leaning t, first_key agent_leaning t).
Proof.
  split; [apply keys_speaker_scores | apply primary_pass_first].
Qed.

(** C5, counterexample.  In [tied_pair] both clusters score one customer
    point and one agent point, so the primary pass resolves nothing and the
    two clusters tie on the customer score; the fallback makes cluster 2,
    which spoke first, the customer, where the lowest cluster id is 1. *)
Lemma max_score_tie_not_lowest_id :
  let t := speaker_scores Examples.tied_pair in
  t = [(2, mkScores 1 1); (1, mkScores 1 1)]
  /\ primary_pass t = (None, None)
  /\ max_score_fallback t (primary_pass t) = (Some 2, Some 1)
  /\ Spec.max_by_lowest_id customer (snd (primary_pass t)) t = Some 1
  /\ fst (max_score_fallback t (primary_pass t))
     <> Spec.max_by_lowest_id customer (snd (primary_pass t)) t.
Proof.
  vm_compute. repeat split; discriminate.
Qed.

(** C5, amended.  In the max-score fallback a role still unresolved after
    the primary pass goes to the cluster with the highest score for that
    role among the clusters not holding the other role (for the agent, the
    customer as it stands once the customer has been filled); among
    clusters tied on that score the one that appears first in the
    transcript is taken.  A role resolved by the primary pass is kept. *)
Theorem max_score_fallback_first_highest td :
  let t := speaker_scores td in
  let before := primary_pass t in
  let after := max_score_fallback t before in
  Dict.keys t = Spec.clusters td
  /\ (fst before = None ->
      match fst after with
      | Some sp =>
          Spec.first_highest customer (Spec.candidates (snd before) t) sp
      | None => Spec.candidates (snd before) t = []
      end)
  /\ (snd before = None ->
      match snd after with
      | Some sp =>
          Spec.first_highest agent (Spec.candidates (fst after) t) sp
      | None => Spec.candidates (fst after) t = []
      end)
  /\ (fst before <> None -> fst after = fst before)
  /\ (snd before <> None -> snd after = snd before).
Proof.
  cbv zeta.
  pose proof (speaker_scores_nonneg td) as Hnn.
  set (t := speaker_scores td) in *.
  assert (Hc : forall e, In e t -> 0 <= customer (snd e))
    by (intros e He; now apply Hnn).
  assert (Ha : forall e, In e t -> 0 <= agent (snd e))
    by (intros e He; now apply Hnn).
  split; [apply keys_speaker_scores|].
  destruct (primary_pass t) as [[c|] [a|]];
    cbn [max_score_fallback is_none orb fst snd];
    repeat split; try congruence; intros _.
  - apply (max_by_spec agent (Some c) t Ha).
  - apply (max_by_spec customer (Some a) t Hc).
  - apply (max_by_spec customer None t Hc).
  - apply (max_by_spec agent _ t Ha).
Qed.

Lemma max_score_fallback_first_highest_witness :
  let t := speaker_scores Examples.three_speakers in
  fst (primary_pass t) = None
  /\ fst (max_score_fallback t (primary_pass t)) = Some 2
  /\ Spec.first_highest customer
       (Spec.candidates (snd (primary_pass t)) t) 2.
Proof.
  cbv zeta.
  assert (H : fst (primary_pass (speaker_scores Examples.three_speakers))
              = None) by reflexivity.
  split; [exact H|]. split; [reflexivity|].
  exact (proj1 (proj2 (max_score_fallback_first_highest
                         Examples.three_speakers)) H).
Defined.

(** C6, counterexample.  No transcript spanning exactly two clusters
    leaves both roles unresolved after the primary pass and the max-score
    fallback, so none brings the word-count fallback into play. *)
Lemma word_count_fallback_never_reached :
  ~ exists td,
      List.length (Spec.clusters td) = 2%nat
      /\ after_max_score td = (None, None).
Proof.
  intros [td [Hlen Hnone]].
  destruct (after_max_score_two td) as (c & a & E & _); [lia|].
  congruence.
Qed.

(** C6, amended.  On no input does the word-count fallback assign a role:
    after the primary pass and the max-score fallback both roles are
    unresolved for the empty transcript only, where the word-count
    fallback has no cluster to rank and leaves both unresolved; on every
    input the resolver returns the assignment reached after the max-score
    fallback. *)
Theorem word_count_fallback_inert td :
  (after_max_score td = (None, None) <-> td = [])
  /\ word_count_fallback [] (None, None) = (None, None)
  /\ resolve_roles td = after_max_score td.
Proof.
  split; [|split; [reflexivity | apply resolve_roles_after_max_score]].
  split.
  - intros H. destruct td as [|seg td]; [reflexivity|].
    exfalso. now apply (after_max_score_nonempty (seg :: td)).
  - intros ->. reflexivity.
Qed.

(** ** RefinementOrchestrator *)

(** Case analysis on a status code against the literal 200. *)
Ltac by_status code :=
  destruct code as [|code|code]; try reflexivity;
  do 8 (destruct code as [code|code|]; try reflexivity).

Lemma failed_first_attempt refiner td ep :
  Spec.failed (refiner 0%nat (first_request ep td)) = true ->
  process_transcript_with_llm refiner td ep []
  = (generic_transcript td, [first_request ep td]).
Proof.
  unfold process_transcript_with_llm, bind, post, ret. simpl.
  destruct (refiner 0%nat (first_request ep td)) as [|code [body|]];
    simpl; try reflexivity.
  - by_status code. discriminate.
  - intros _. by_status code.
Qed.

Lemma accepted_first_attempt refiner td ep refined :
  refiner 0%nat (first_request ep td) = Response 200 (Some refined) ->
  Spec.has_both_roles refined = true ->
  process_transcript_with_llm refiner td ep []
  = (refined, [first_request ep td]).
Proof.
  intros Hr Hboth.
  unfold process_transcript_with_llm, bind, post, ret. simpl.
  rewrite Hr. unfold Spec.has_both_roles in Hboth.
  apply andb_true_iff in Hboth as [-> ->]. reflexivity.
Qed.

Lemma retried_after_first_attempt refiner td ep refined :
  refiner 0%nat (first_request ep td) = Response 200 (Some refined) ->
  Spec.has_both_roles refined = false ->
  process_transcript_with_llm refiner td ep []
  = retry_with_modified_prompt refiner td ep [first_request ep td].
Proof.
  intros Hr Hboth.
  unfold process_transcript_with_llm, bind, post, ret. simpl.
  rewrite Hr. unfold Spec.has_both_roles in Hboth.
  apply andb_false_iff in Hboth as [-> | ->]; simpl;
    [|rewrite orb_true_r]; reflexivity.
Qed.

Lemma retry_run refiner td ep :
  retry_with_modified_prompt refiner td ep [first_request ep td]
  = (match refiner 1%nat (retry_request ep td) with
     | Response 200 (Some refined2) => refined2
     | _ => create_fallback_transcript td
              (fst (resolve_roles td)) (snd (resolve_roles td))
     end,
     [first_request ep td; retry_request ep td]).
Proof.
  unfold retry_with_modified_prompt, bind, post, ret.
  destruct (resolve_roles td) as [lc la]. simpl.
  destruct (refiner 1%nat (retry_request ep td)) as [|code [body|]];
    try reflexivity.
  - by_status code.
  - by_status code.
Qed.

(** C1, counterexample.  With a service answering 500, the run on
    [service_call] sends one request only and returns the transcript under
    its generic speaker labels: no second attempt is made. *)
Lemma http_500_no_second_attempt :
  let run :=
    process_transcript_with_llm Examples.always_500 Examples.service_call
      default_endpoint [] in
  Examples.always_500 0%nat
    (first_request default_endpoint Examples.service_call)
  = Response 500 None
  /\ snd run = [first_request default_endpoint Examples.service_call]
  /\ List.length (snd run) <> 2%nat
  /\ fst run = generic_transcript Examples.service_call.
Proof.
  cbv zeta. rewrite failed_first_attempt by reflexivity.
  repeat split. simpl. discriminate.
Qed.

(** C1, amended.  If the first refinement call does not succeed (a status
    other than 200 such as 500, an exception, or a body that cannot be
    decoded), the orchestrator makes no second attempt: the single request
    sent is the first one, and the result is the transcript under the
    generic speaker labels. *)
Theorem first_attempt_failure_is_final refiner td ep :
  Spec.failed (refiner 0%nat (first_request ep td)) = true ->
  process_transcript_with_llm refiner td ep []
  = (generic_transcript td, [first_request ep td]).
Proof. apply failed_first_attempt. Qed.

Lemma first_attempt_failure_is_final_witness :
  Spec.failed
    (Examples.always_500 0%nat
       (first_request default_endpoint Examples.service_call)) = true
  /\ process_transcript_with_llm Examples.always_500 Examples.service_call
       default_endpoint []
     = (generic_transcript Examples.service_call,
        [first_request default_endpoint Examples.service_call]).
Proof.
  assert (H : Spec.failed
                (Examples.always_500 0%nat
                   (first_request default_endpoint Examples.service_call))
              = true) by reflexivity.
  split; [exact H|].
  exact (first_attempt_failure_is_final _ _ _ H).
Defined.

(** C3, counterexample.  With a service answering 500 to the first
    request, the output on [service_call] is the transcript under the
    generic labels [SPEAKER 1], [SPEAKER 2], not the role-labelled
    transcript that the composer renders from the resolved roles. *)
Lemma first_failure_output_not_role_labelled :
  let td := Examples.service_call in
  let out :=
    fst (process_transcript_with_llm Examples.always_500 td
           default_endpoint []) in
  resolve_roles td = (Some 2, Some 1)
  /\ out = generic_transcript td
  /\ out <> create_fallback_transcript td (Some 2) (Some 1).
Proof.
  cbv zeta. rewrite failed_first_attempt by reflexivity.
  split; [reflexivity|]. split; [reflexivity|].
  vm_compute. discriminate.
Qed.

(** C3, amended.  A failure of the second refinement call (a status other
    than 200, an exception, or a body that cannot be decoded) makes the
    output the transcript rendered by the composer from the locally
    resolved roles; a failure of the first call makes the output the
    transcript under the generic speaker labels. *)
Theorem fallback_outputs refiner td ep :
  (Spec.failed (refiner 0%nat (first_request ep td)) = true ->
   fst (process_transcript_with_llm refiner td ep [])
   = generic_transcript td)
  /\ (forall refined,
        refiner 0%nat (first_request ep td) = Response 200 (Some refined) ->
        Spec.has_both_roles refined = false ->
        Spec.failed (refiner 1%nat (retry_request ep td)) = true ->
        fst (process_transcript_with_llm refiner td ep [])
        = create_fallback_transcript td
            (fst (resolve_roles td)) (snd (resolve_roles td))).
Proof.
  split.
  - intros H. now rewrite failed_first_attempt.
  - intros refined Hr Hboth Hfail.
    rewrite (retried_after_first_attempt _ _ _ _ Hr Hboth), retry_run.
    destruct (refiner 1%nat (retry_request ep td)) as [|code [body|]];
      try reflexivity.
    + by_status code. discriminate.
    + by_status code.
Qed.

Lemma fallback_outputs_witness :
  let td := Examples.three_speakers in
  let refiner := Examples.one_role_then_500 in
  Spec.has_both_roles "AGENT at 0:00:00: hello" = false
  /\ Spec.failed (refiner 1%nat (retry_request default_endpoint td)) = true
  /\ fst (process_transcript_with_llm refiner td default_endpoint [])
     = create_fallback_transcript td
         (fst (resolve_roles td)) (snd (resolve_roles td)).
Proof.
  cbv zeta. split; [reflexivity|]. split; [reflexivity|].
  exact (proj2 (fallback_outputs Examples.one_role_then_500
                  Examples.three_speakers default_endpoint)
           "AGENT at 0:00:00: hello" eq_refl eq_refl eq_refl).
Defined.

(** ** TranscriptComposer *)

(** C10. When both roles are resolved, a segment whose cluster is neither
    the customer cluster nor the agent cluster is rendered by the fallback
    transcript under the literal role SPEAKER, which is neither of the two
    role tokens. *)
Theorem third_cluster_labelled_speaker td c a i seg :
  nth_error td i = Some seg ->
  speaker_num seg <> c ->
  speaker_num seg <> a ->
  identified_role (Some c) (Some a) seg = "SPEAKER"
  /\ nth_error (fallback_lines td (Some c) (Some a)) i
     = Some ("SPEAKER at " ++ start_time seg ++ ": " ++ text seg)%string
  /\ create_fallback_transcript td (Some c) (Some a)
     = Py.join nl (fallback_lines td (Some c) (Some a))
  /\ "SPEAKER" <> "AGENT" /\ "SPEAKER" <> "CUSTOMER".
Proof.
  intros Hnth Hc Ha.
  assert (Hrole : identified_role (Some c) (Some a) seg = "SPEAKER").
  { unfold identified_role, eq_opt.
    apply Z.eqb_neq in Hc, Ha. now rewrite Hc, Ha. }
  split; [exact Hrole|]. split.
  - unfold fallback_lines. cbn [is_none andb].
    rewrite (map_nth_error _ _ _ Hnth), Hrole. reflexivity.
  - repeat split; discriminate.
Qed.

Lemma third_cluster_labelled_speaker_witness :
  let td := Examples.three_speakers in
  let seg := mkSegment 1 "0:00:03" "ok" in
  resolve_roles td = (Some 2, Some 3)
  /\ nth_error td 2 = Some seg
  /\ nth_error (fallback_lines td (Some 2) (Some 3)) 2
     = Some "SPEAKER at 0:00:03: ok"
  /\ fst (process_transcript_with_llm Examples.one_role_then_500 td
            default_endpoint [])
     = "AGENT at 0:00:00: hello
CUSTOMER at 0:00:02: yes
SPEAKER at 0:00:03: ok
AGENT at 0:00:04: bye".
Proof.
  cbv zeta. split; [reflexivity|]. split; [reflexivity|].
  split; [|reflexivity].
  assert (H1 : speaker_num (mkSegment 1 "0:00:03" "ok") <> 2)
    by (simpl; lia).
  assert (H2 : speaker_num (mkSegment 1 "0:00:03" "ok") <> 3)
    by (simpl; lia).
  exact (proj1 (proj2 (third_cluster_labelled_speaker
                         Examples.three_speakers 2 3 2
                         (mkSegment 1 "0:00:03" "ok") eq_refl H1 H2))).
Defined.

(** ** EmbeddingExtractor *)

Lemma SFcompare_Lt_swap x y :
  SFcompare x y = Some Lt -> SFcompare y x = Some Gt.
Proof.
  destruct x as [sx|sx| |sx mx ex], y as [sy|sy| |sy my ey]; simpl;
    try destruct sx; try destruct sy; try congruence.
  - rewrite (Z.compare_antisym ex ey).
    destruct (ex ?= ey) eqn:E; simpl; try congruence.
    change (Pos.compare_cont Eq mx my) with (mx ?= my)%positive.
    change (Pos.compare_cont Eq my mx) with (my ?= mx)%positive.
    rewrite (Pos.compare_antisym mx my).
    destruct (mx ?= my)%positive; simpl; congruence.
  - rewrite (Z.compare_antisym ex ey).
    destruct (ex ?= ey) eqn:E; simpl; try congruence.
    change (Pos.compare_cont Eq mx my) with (mx ?= my)%positive.
    change (Pos.compare_cont Eq my mx) with (my ?= mx)%positive.
    rewrite (Pos.compare_antisym mx my).
    destruct (mx ?= my)%positive; simpl; congruence.
Qed.

Lemma ltb_asym (x y : float) :
  PrimFloat.ltb x y = true -> PrimFloat.ltb y x = false.
Proof.
  rewrite !ltb_spec. unfold SFltb.
  destruct (SFcompare (Prim2SF x) (Prim2SF y)) as [[]|] eqn:E;
    try discriminate.
  intros _. now rewrite (SFcompare_Lt_swap _ _ E).
Qed.

Lemma zeros_shape n :
  Embedding.shape (Embedding.zeros n) = [n]
  /\ List.length (Embedding.data (Embedding.zeros n)) = n
  /\ Forall (fun x => x = 0%float) (Embedding.data (Embedding.zeros n)).
Proof.
  unfold Embedding.zeros. simpl. split; [reflexivity|].
  split; [apply repeat_length|].
  apply Forall_forall. intros x Hx. now apply repeat_spec in Hx.
Qed.



(** * Further properties of the code *)

(** ** The resolver on any transcript *)

Lemma max_by_Some score other t sp :
  (forall e, In e t -> 0 <= score (snd e)) ->
  max_by score other t = Some sp ->
  In sp (Dict.keys t) /\ neq_opt sp other = true.
Proof.
  intros Hnn E. pose proof (max_by_spec score other t Hnn) as H.
  rewrite E in H. now apply first_highest_candidate in H.
Qed.

Lemma after_max_score_sound td :
  (forall c, fst (after_max_score td) = Some c -> In c (Spec.clusters td))
  /\ (forall a, snd (after_max_score td) = Some a -> In a (Spec.clusters td))
  /\ (forall c a, after_max_score td = (Some c, Some a) -> c <> a).
Proof.
  unfold after_max_score. cbv zeta.
  rewrite <- keys_speaker_scores.
  pose proof (NoDup_keys_speaker_scores td) as Hnd.
  pose proof (speaker_scores_nonneg td) as Hnn.
  set (t := speaker_scores td) in *.
  assert (Hc : forall e, In e t -> 0 <= customer (snd e))
    by (intros e He; now apply Hnn).
  assert (Ha : forall e, In e t -> 0 <= agent (snd e))
    by (intros e He; now apply Hnn).
  rewrite primary_pass_first. unfold max_score_fallback.
  destruct (first_key customer_leaning t) as [c|] eqn:Ec,
           (first_key agent_leaning t) as [a|] eqn:Ea;
    cbn [is_none orb fst snd].
  - repeat split.
    + intros ? [= <-]. eauto using first_key_In.
    + intros ? [= <-]. eauto using first_key_In.
    + intros ? ? [= <- <-]. eauto using leaning_apart.
  - destruct (max_by agent (Some c) t) as [a|] eqn:E.
    + apply (max_by_Some _ _ _ _ Ha) in E as [Hin Hne].
      apply neq_opt_Some in Hne. repeat split.
      * intros ? [= <-]. eauto using first_key_In.
      * now intros ? [= <-].
      * intros ? ? [= <- <-]. congruence.
    + repeat split; try discriminate.
      intros ? [= <-]. eauto using first_key_In.
  - destruct (max_by customer (Some a) t) as [c|] eqn:E.
    + apply (max_by_Some _ _ _ _ Hc) in E as [Hin Hne].
      apply neq_opt_Some in Hne. repeat split.
      * now intros ? [= <-].
      * intros ? [= <-]. eauto using first_key_In.
      * now intros ? ? [= <- <-].
    + repeat split; try discriminate.
      intros ? [= <-]. eauto using first_key_In.
  - destruct (max_by customer None t) as [c|] eqn:E.
    + apply (max_by_Some _ _ _ _ Hc) in E as [Hin _].
      destruct (max_by agent (Some c) t) as [a|] eqn:E'.
      * apply (max_by_Some _ _ _ _ Ha) in E' as [Hin' Hne].
        apply neq_opt_Some in Hne. repeat split.
        -- now intros ? [= <-].
        -- now intros ? [= <-].
        -- intros ? ? [= <- <-]. congruence.
      * repeat split; try discriminate. now intros ? [= <-].
    + destruct (max_by agent None t) as [a|] eqn:E'.
      * apply (max_by_Some _ _ _ _ Ha) in E' as [Hin' _].
        repeat split; try discriminate. now intros ? [= <-].
      * repeat split; discriminate.
Qed.

(** X1. Whatever the transcript, a role that the resolver fills is filled
    with a cluster of the transcript, and the two roles never fall on the
    same cluster. *)
Theorem resolved_roles_sound td :
  (forall c, fst (resolve_roles td) = Some c -> In c (Spec.clusters td))
  /\ (forall a, snd (resolve_roles td) = Some a -> In a (Spec.clusters td))
  /\ (forall c a, resolve_roles td = (Some c, Some a) -> c <> a).
Proof.
  rewrite resolve_roles_after_max_score. apply after_max_score_sound.
Qed.

Lemma resolved_roles_sound_witness :
  resolve_roles Examples.three_speakers = (Some 2, Some 3)
  /\ 2 <> 3
  /\ In 2 (Spec.clusters Examples.three_speakers).
Proof.
  assert (H : resolve_roles Examples.three_speakers = (Some 2, Some 3))
    by reflexivity.
  destruct (resolved_roles_sound Examples.three_speakers) as (Hc & _ & Hd).
  split; [exact H|]. split; [exact (Hd 2 3 H)|].
  apply Hc. now rewrite H.
Defined.

Lemma keys_singleton (t : score_table) k :
  Dict.keys t = [k] -> exists sc, t = [(k, sc)].
Proof.
  destruct t as [|[k' sc] [|e t]]; simpl; try discriminate.
  intros [= ->]. now exists sc.
Qed.

(** X2. When every segment belongs to one cluster, the resolver fills
    exactly one role with it and leaves the other unresolved: the agent
    when the cluster's agent score exceeds its customer score, the customer
    otherwise.  The cluster is never given both roles. *)
Theorem single_cluster_one_role td k :
  Spec.clusters td = [k] ->
  exists sc,
    Dict.get k (speaker_scores td) = Some sc
    /\ resolve_roles td
       = if agent sc >? customer sc then (None, Some k) else (Some k, None).
Proof.
  intros Hk. rewrite resolve_roles_after_max_score.
  unfold after_max_score. cbv zeta.
  pose proof (speaker_scores_nonneg td) as Hnn.
  rewrite <- keys_speaker_scores in Hk.
  apply keys_singleton in Hk as [sc Ht]. rewrite Ht in *.
  exists sc. simpl. rewrite Z.eqb_refl. split; [reflexivity|].
  destruct (Hnn (k, sc) (or_introl eq_refl)) as [Hc Ha]. simpl in Hc, Ha.
  unfold primary_pass, max_score_fallback, max_by. simpl.
  destruct (customer sc >? agent sc) eqn:Ec; simpl.
  - apply Z.gtb_lt in Ec.
    assert ((agent sc >? customer sc) = false) as ->
      by (destruct (Z.gtb_spec (agent sc) (customer sc)); [lia | easy]).
    unfold neq_opt, eq_opt. now rewrite Z.eqb_refl.
  - destruct (agent sc >? customer sc) eqn:Ea; simpl.
    + unfold neq_opt, eq_opt. now rewrite Z.eqb_refl.
    + assert ((customer sc >? -1) = true) as ->
        by (apply Z.gtb_lt; lia).
      simpl. unfold neq_opt, eq_opt. now rewrite Z.eqb_refl.
Qed.

Lemma single_cluster_one_role_witness :
  Spec.clusters MoreExamples.monologue = [1]
  /\ resolve_roles MoreExamples.monologue = (Some 1, None).
Proof.
  assert (H : Spec.clusters MoreExamples.monologue = [1]) by reflexivity.
  split; [exact H|].
  destruct (single_cluster_one_role _ _ H) as (sc & Hget & Hres).
  vm_compute in Hget. injection Hget as <-. exact Hres.
Defined.

(** ** The scorer on any transcript *)

(** X3. Scores are tallies that only grow: whatever the transcript, no
    entry of the score table has a negative customer score or a negative
    agent score. *)
Theorem scores_never_negative td c sc :
  Dict.get c (speaker_scores td) = Some sc ->
  0 <= customer sc /\ 0 <= agent sc.
Proof.
  intros H. apply get_Some_In in H.
  exact (speaker_scores_nonneg td (c, sc) H).
Qed.

Lemma scores_never_negative_witness :
  Dict.get 2 (speaker_scores Examples.service_call)
  = Some (mkScores 12 1)
  /\ 0 <= 12 /\ 0 <= 1.
Proof.
  assert (H : Dict.get 2 (speaker_scores Examples.service_call)
              = Some (mkScores 12 1)) by reflexivity.
  split; [exact H|].
  exact (scores_never_negative _ _ _ H).
Defined.

Lemma last_In {A : Type} (l : list A) (d : A) :
  l <> [] -> In (last l d) l.
Proof.
  induction l as [|x l IH]; [congruence|]. intros _.
  destruct l as [|y l']; [now left|].
  right. apply IH. discriminate.
Qed.

Lemma agent_score_ge_positional c td :
  Spec.positional_bonus c td <= Spec.agent_score c td.
Proof.
  unfold Spec.agent_score.
  pose proof (sum_lexical_nonneg Spec.lexical_agent
                (filter (Spec.in_cluster c) td) lexical_agent_nonneg).
  pose proof (count_if_nonneg
    (fun p => Spec.question_pair p && Spec.in_cluster c (fst p))
    (Spec.consecutive_pairs td)).
  lia.
Qed.

Lemma positional_bonus_cons c first rest :
  Spec.positional_bonus c (first :: rest)
  = (if speaker_num first =? c then 1 else 0)
    + (if speaker_num (last (first :: rest) first) =? c then 1 else 0).
Proof. reflexivity. Qed.

(** X4. The speaker who opens the call and the speaker who closes it each
    hold an agent score of at least one, and of at least two when they are
    the same speaker, whatever is said. *)
Theorem opener_and_closer_lean_agent first rest :
  let td := first :: rest in
  let closing := last td first in
  exists sc_open sc_close,
    Dict.get (speaker_num first) (speaker_scores td) = Some sc_open
    /\ Dict.get (speaker_num closing) (speaker_scores td) = Some sc_close
    /\ 1 <= agent sc_open
    /\ 1 <= agent sc_close
    /\ (speaker_num first = speaker_num closing -> 2 <= agent sc_open).
Proof.
  cbv zeta.
  assert (Hin : forall seg, In seg (first :: rest) ->
            existsb (Spec.in_cluster (speaker_num seg)) (first :: rest)
            = true).
  { intros seg Hs. apply existsb_exists. exists seg. split; [exact Hs|].
    apply Z.eqb_refl. }
  assert (Hlast : In (last (first :: rest) first) (first :: rest))
    by (apply last_In; discriminate).
  set (closing := last (first :: rest) first) in *.
  exists (mkScores
            (Spec.customer_score (speaker_num first) (first :: rest))
            (Spec.agent_score (speaker_num first) (first :: rest))),
         (mkScores
            (Spec.customer_score (speaker_num closing) (first :: rest))
            (Spec.agent_score (speaker_num closing) (first :: rest))).
  rewrite !get_speaker_scores. unfold Spec.reference_scores.
  rewrite (Hin first (or_introl eq_refl)), (Hin _ Hlast).
  split; [reflexivity|]. split; [reflexivity|]. cbn [agent].
  pose proof (agent_score_ge_positional (speaker_num first) (first :: rest))
    as Ho.
  pose proof (agent_score_ge_positional (speaker_num closing)
                (first :: rest)) as Hc.
  rewrite positional_bonus_cons in Ho, Hc. fold closing in Ho, Hc.
  rewrite Z.eqb_refl in Ho, Hc.
  repeat split.
  - destruct (speaker_num closing =? speaker_num first); lia.
  - destruct (speaker_num first =? speaker_num closing); lia.
  - intros E. rewrite <- E, Z.eqb_refl in Ho. lia.
Qed.

Lemma score_segment_same_evidence t s s' :
  same_evidence s s' -> score_segment t s = score_segment t s'.
Proof.
  intros [Hk Ht]. unfold score_segment. now rewrite Hk, Ht.
Qed.

Lemma init_scores_same_evidence td td' :
  Forall2 same_evidence td td' -> init_scores td = init_scores td'.
Proof.
  unfold init_scores. generalize (@nil (Z * scores)).
  intros t H. revert t.
  induction H as [|s s' td td' [Hk _] _ IH]; intros t; [reflexivity|].
  simpl. rewrite Hk. apply IH.
Qed.

Lemma text_pass_same_evidence td td' t :
  Forall2 same_evidence td td' -> text_pass td t = text_pass td' t.
Proof.
  unfold text_pass. intros H. revert t.
  induction H as [|s s' td td' Hs _ IH]; intros t; [reflexivity|].
  simpl. rewrite (score_segment_same_evidence t s s' Hs). apply IH.
Qed.

Lemma last_same_evidence td td' d d' :
  Forall2 same_evidence td td' -> same_evidence d d' ->
  same_evidence (last td d) (last td' d').
Proof.
  intros H Hd. induction H as [|s s' td td' Hs Htl IH]; [exact Hd|].
  destruct Htl as [|x x' l l' Hx Hl]; [exact Hs|]. exact IH.
Qed.

Lemma position_pass_same_evidence td td' t :
  Forall2 same_evidence td td' -> position_pass td t = position_pass td' t.
Proof.
  intros H. destruct H as [|s s' td td' Hs Htl]; [reflexivity|].
  unfold position_pass.
  pose proof (last_same_evidence (s :: td) (s' :: td') s s'
                (Forall2_cons _ _ Hs Htl) Hs) as [Hl _].
  destruct Hs as [Hk _]. now rewrite Hk, Hl.
Qed.

Lemma question_pass_step cur next rest t :
  question_pass (cur :: next :: rest) t
  = question_pass (next :: rest)
      (if Py.endswith "?" (Py.lower (text cur))
          && negb (speaker_num cur =? speaker_num next)
       then add_customer (speaker_num next) 1
              (add_agent (speaker_num cur) 1 t)
       else t).
Proof. reflexivity. Qed.

Lemma question_pass_same_evidence td td' t :
  Forall2 same_evidence td td' -> question_pass td t = question_pass td' t.
Proof.
  intros H. revert t.
  induction H as [|s s' td td' Hs Htl IH]; intros t; [reflexivity|].
  destruct Htl as [|x x' l l' Hx Hl]; [reflexivity|].
  rewrite !question_pass_step.
  destruct Hs as [Hk Ht], Hx as [Hk' Ht'].
  rewrite Hk, Hk', Ht. apply IH.
Qed.

(** X5. Scoring and role resolution look at the speaker of each segment
    and at its text in lower case only: two transcripts that agree on
    those, segment by segment, get the same score table and the same roles,
    whatever their timestamps and the case of their letters. *)
Theorem scoring_ignores_case_and_timestamps td td' :
  Forall2 same_evidence td td' ->
  speaker_scores td = speaker_scores td'
  /\ resolve_roles td = resolve_roles td'.
Proof.
  intros H.
  assert (E : speaker_scores td = speaker_scores td').
  { unfold speaker_scores.
    rewrite (question_pass_same_evidence _ _ _ H),
      (position_pass_same_evidence _ _ _ H),
      (text_pass_same_evidence _ _ _ H),
      (init_scores_same_evidence _ _ H).
    reflexivity. }
  split; [exact E|].
  rewrite !resolve_roles_after_max_score. unfold after_max_score.
  now rewrite E.
Qed.

Lemma scoring_ignores_case_and_timestamps_witness :
  Forall2 same_evidence Examples.service_call
    MoreExamples.service_call_capitals
  /\ speaker_scores Examples.service_call
     = speaker_scores MoreExamples.service_call_capitals
  /\ resolve_roles Examples.service_call
     = resolve_roles MoreExamples.service_call_capitals.
Proof.
  assert (H : Forall2 same_evidence Examples.service_call
                MoreExamples.service_call_capitals)
    by (repeat constructor).
  split; [exact H|].
  exact (scoring_ignores_case_and_timestamps _ _ H).
Defined.

(** ** The orchestrator on any service *)

Lemma not_failed_inv r :
  Spec.failed r = false -> exists refined, r = Response 200 (Some refined).
Proof.
  destruct r as [|code [body|]]; simpl; try discriminate.
  - intros H. exists body.
    destruct code as [|code|code]; try discriminate.
    do 8 (destruct code as [code|code|]; try discriminate).
    reflexivity.
  - destruct code as [|code|code]; try discriminate.
    do 8 (destruct code as [code|code|]; try discriminate).
Qed.

(** X6. Whatever the service answers, a run sends one request or two and
    never more: the first is always the plain request, and a second one,
    the hinted retry at a lower temperature, is sent exactly when the first
    answer is a success whose text lacks one of the two role tokens. *)
Theorem one_or_two_requests refiner td ep :
  let sent := snd (process_transcript_with_llm refiner td ep []) in
  (sent = [first_request ep td]
   \/ sent = [first_request ep td; retry_request ep td])
  /\ (sent = [first_request ep td; retry_request ep td]
      <-> exists refined,
            refiner 0%nat (first_request ep td)
            = Response 200 (Some refined)
            /\ Spec.has_both_roles refined = false)
  /\ (temperature (retry_request ep td)
      < temperature (first_request ep td))%Q.
Proof.
  cbv zeta.
  destruct (Spec.failed (refiner 0%nat (first_request ep td))) eqn:Ef.
  - rewrite (failed_first_attempt _ _ _ Ef). cbn [snd].
    split; [now left|]. split; [|reflexivity]. split; [discriminate|].
    intros (refined & Hr & _). rewrite Hr in Ef. discriminate.
  - destruct (not_failed_inv _ Ef) as [refined Hr].
    destruct (Spec.has_both_roles refined) eqn:Hb.
    + rewrite (accepted_first_attempt _ _ _ _ Hr Hb). cbn [snd].
      split; [now left|]. split; [|reflexivity]. split; [discriminate|].
      intros (refined' & Hr' & Hb'). congruence.
    + rewrite (retried_after_first_attempt _ _ _ _ Hr Hb), retry_run.
      cbn [snd]. split; [now right|]. split; [|reflexivity].
      split; [|reflexivity]. intros _. now exists refined.
Qed.

(** ** The span of a clip *)

Lemma ltb_irrefl (x : float) : PrimFloat.ltb x x = false.
Proof.
  destruct (PrimFloat.ltb x x) eqn:E; [|reflexivity].
  now rewrite (ltb_asym _ _ E) in E.
Qed.

(** X7. The span handed to the audio reader never ends after the total
    duration nor after the segment's own end, whatever the two values are
    (not-a-number included). *)
Theorem clip_never_overshoots segment duration :
  let c := Embedding.clip_of segment duration in
  PrimFloat.ltb duration (Embedding.clip_end c) = false
  /\ PrimFloat.ltb (Embedding.seg_end segment) (Embedding.clip_end c) = false.
Proof.
  cbv zeta. unfold Embedding.clip_of, Embedding.py_min. cbn.
  destruct (PrimFloat.ltb (Embedding.seg_end segment) duration) eqn:E.
  - split; [now apply ltb_asym | apply ltb_irrefl].
  - split; [apply ltb_irrefl | exact E].
Qed.

(** ** Fallback transcripts and hints in a run *)

Lemma prefix_app p a b :
  String.prefix p a = true -> String.prefix p (a ++ b)%string = true.
Proof.
  revert a. induction p as [|c p IH]; intros a;
    [now destruct (a ++ b)%string|].
  destruct a as [|d a]; simpl; [discriminate|].
  destruct (ascii_dec c d); [apply IH | discriminate].
Qed.

Lemma prefix_self p rest : String.prefix p (p ++ rest)%string = true.
Proof.
  induction p as [|c p IH]; simpl; [now destruct rest|].
  destruct (ascii_dec c c); [exact IH | congruence].
Qed.

Lemma contains_unfold sub s :
  Py.contains sub s
  = Py.startswith sub s
    || match s with
       | EmptyString => false
       | String _ r => Py.contains sub r
       end.
Proof. now destruct s. Qed.

Lemma contains_app_l sub a b :
  Py.contains sub a = true -> Py.contains sub (a ++ b)%string = true.
Proof.
  induction a as [|c a IH]; rewrite contains_unfold; intros H;
    apply orb_true_iff in H as [H|H].
  - rewrite contains_unfold. apply orb_true_iff. left.
    now apply prefix_app.
  - discriminate.
  - rewrite contains_unfold. apply orb_true_iff. left.
    now apply prefix_app.
  - change (String c a ++ b)%string with (String c (a ++ b)%string).
    rewrite contains_unfold. apply orb_true_iff. right. now apply IH.
Qed.

Lemma contains_app_r sub a b :
  Py.contains sub b = true -> Py.contains sub (a ++ b)%string = true.
Proof.
  intros H. induction a as [|c a IH]; [exact H|].
  change (String c a ++ b)%string with (String c (a ++ b)%string).
  rewrite contains_unfold. apply orb_true_iff. now right.
Qed.

Lemma contains_start sub rest : Py.contains sub (sub ++ rest)%string = true.
Proof.
  rewrite contains_unfold. apply orb_true_iff. left. apply prefix_self.
Qed.

Lemma contains_join sub sep items item :
  In item items -> Py.contains sub item = true ->
  Py.contains sub (Py.join sep items) = true.
Proof.
  unfold Py.join. intros Hin Hc.
  induction items as [|x items IH]; [destruct Hin|].
  destruct items as [|y items].
  - destruct Hin as [->|[]]. exact Hc.
  - change (String.concat sep (x :: y :: items))
      with (x ++ sep ++ String.concat sep (y :: items))%string.
    destruct Hin as [->|Hin].
    + now apply contains_app_l.
    + apply contains_app_r, contains_app_r. now apply IH.
Qed.

Lemma identified_role_customer c la seg :
  speaker_num seg = c -> identified_role (Some c) la seg = "CUSTOMER".
Proof.
  intros <-. unfold identified_role, eq_opt. now rewrite Z.eqb_refl.
Qed.

Lemma identified_role_agent c a seg :
  speaker_num seg = a -> a <> c ->
  identified_role (Some c) (Some a) seg = "AGENT".
Proof.
  intros <- Hne. unfold identified_role, eq_opt.
  apply Z.eqb_neq in Hne. now rewrite Hne, Z.eqb_refl.
Qed.

(** X8. For a transcript with two clusters or more, the fallback
    transcript composed from the resolved roles names both roles: it
    contains the token AGENT and the token CUSTOMER, so it meets the
    condition under which a first answer of the service is accepted. *)
Theorem fallback_transcript_names_both_roles td :
  (2 <= List.length (Spec.clusters td))%nat ->
  Spec.has_both_roles
    (create_fallback_transcript td
       (fst (resolve_roles td)) (snd (resolve_roles td))) = true.
Proof.
  intros Hlen. rewrite resolve_roles_after_max_score.
  destruct (after_max_score_two td Hlen) as (c & a & -> & Hne & Hc & Ha).
  cbn [fst snd].
  apply In_clusters in Hc as (sc & Hsc & Ec).
  apply In_clusters in Ha as (sa & Hsa & Ea).
  unfold Spec.has_both_roles, create_fallback_transcript, fallback_lines.
  cbn [is_none andb]. apply andb_true_iff. split.
  - apply (contains_join _ _ _
             (line (identified_role (Some c) (Some a) sa) sa)).
    + exact (in_map
               (fun seg => line (identified_role (Some c) (Some a) seg) seg)
               td sa Hsa).
    + rewrite (identified_role_agent c a sa Ea) by congruence.
      apply contains_start.
  - apply (contains_join _ _ _
             (line (identified_role (Some c) (Some a) sc) sc)).
    + exact (in_map
               (fun seg => line (identified_role (Some c) (Some a) seg) seg)
               td sc Hsc).
    + rewrite (identified_role_customer c (Some a) sc Ec).
      apply contains_start.
Qed.

Lemma fallback_transcript_names_both_roles_witness :
  (2 <= List.length (Spec.clusters Examples.three_speakers))%nat
  /\ Spec.has_both_roles
       (create_fallback_transcript Examples.three_speakers
          (fst (resolve_roles Examples.three_speakers))
          (snd (resolve_roles Examples.three_speakers))) = true.
Proof.
  assert (H : (2 <= List.length (Spec.clusters Examples.three_speakers))%nat)
    by (vm_compute; lia).
  split; [exact H | exact (fallback_transcript_names_both_roles _ H)].
Defined.

Lemma two_clusters_cover (ks : list Z) c a k :
  List.length ks = 2%nat -> NoDup ks ->
  In c ks -> In a ks -> c <> a -> In k ks -> k = c \/ k = a.
Proof.
  destruct ks as [|x [|y [|z ks]]]; simpl; try discriminate.
  intros _ Hnd Hc Ha Hne Hk. intuition congruence.
Qed.

(** X9. For a transcript with exactly two clusters, every segment belongs
    to the customer cluster or to the agent cluster: the fallback
    transcript labels it CUSTOMER or AGENT, never SPEAKER, and the retry
    prompt gives it the hint of the same role. *)
Theorem two_clusters_every_segment_has_a_role td seg :
  List.length (Spec.clusters td) = 2%nat ->
  In seg td ->
  let lc := fst (resolve_roles td) in
  let la := snd (resolve_roles td) in
  let hint := speaker_hint (speaker_scores td) (lc, la) seg in
  (lc = Some (speaker_num seg)
   /\ identified_role lc la seg = "CUSTOMER"
   /\ Py.startswith " (likely CUSTOMER" hint = true)
  \/ (la = Some (speaker_num seg)
      /\ identified_role lc la seg = "AGENT"
      /\ Py.startswith " (likely AGENT" hint = true).
Proof.
  intros Hlen Hseg. cbv zeta. rewrite resolve_roles_after_max_score.
  destruct (after_max_score_two td) as (c & a & -> & Hne & Hc & Ha);
    [lia|].
  cbn [fst snd].
  assert (Hk : In (speaker_num seg) (Spec.clusters td))
    by (apply In_clusters; now exists seg).
  pose proof (NoDup_order_of_appearance (map speaker_num td)) as Hnd.
  destruct (two_clusters_cover _ c a _ Hlen Hnd Hc Ha Hne Hk) as [E|E].
  - left. split; [now rewrite E|].
    split; [now apply identified_role_customer|].
    unfold speaker_hint, eq_opt. rewrite E, Z.eqb_refl.
    destruct (score_or_zero customer c (speaker_scores td) >? 0);
      reflexivity.
  - right. split; [now rewrite E|].
    split; [apply identified_role_agent; congruence|].
    unfold speaker_hint, eq_opt. rewrite E.
    assert ((a =? c) = false) as -> by (apply Z.eqb_neq; congruence).
    rewrite Z.eqb_refl.
    destruct (score_or_zero agent a (speaker_scores td) >? 0);
      reflexivity.
Qed.

Lemma two_clusters_every_segment_has_a_role_witness :
  let td := Examples.service_call in
  let seg := mkSegment 2 "0:00:05" "I lost my card" in
  List.length (Spec.clusters td) = 2%nat
  /\ In seg td
  /\ identified_role (fst (resolve_roles td)) (snd (resolve_roles td)) seg
     = "CUSTOMER".
Proof.
  cbv zeta.
  assert (H1 : List.length (Spec.clusters Examples.service_call) = 2%nat)
    by reflexivity.
  assert (H2 : In (mkSegment 2 "0:00:05" "I lost my card")
                 Examples.service_call) by (right; now left).
  split; [exact H1|]. split; [exact H2|].
  destruct (two_clusters_every_segment_has_a_role _ _ H1 H2)
    as [(_ & H & _)|(E & _ & _)]; [exact H|].
  vm_compute in E. discriminate.
Defined.

(** ** The word-count step taken alone *)

Lemma words_of_cons k seg td :
  words_of k (seg :: td)
  = (if Spec.in_cluster k seg
     then Z.of_nat (List.length (Py.split (text seg))) else 0)
    + words_of k td.
Proof.
  unfold words_of. cbn [filter].
  destruct (Spec.in_cluster k seg); reflexivity.
Qed.

Lemma get_count_words_from td w0 k :
  Dict.get k
    (fold_left
       (fun w seg =>
          Dict.adjust
            (fun n => n + Z.of_nat (List.length (Py.split (text seg))))
            (speaker_num seg)
            (Dict.add_if_absent (speaker_num seg) 0 w))
       td w0)
  = match Dict.get k w0 with
    | Some n => Some (n + words_of k td)
    | None =>
        if existsb (Spec.in_cluster k) td then Some (words_of k td) else None
    end.
Proof.
  revert w0. induction td as [|seg td IH]; intros w0.
  - simpl. unfold words_of. simpl.
    destruct (Dict.get k w0); [f_equal; lia | reflexivity].
  - cbn [fold_left]. rewrite IH, get_adjust, get_add_if_absent.
    rewrite words_of_cons. cbn [existsb].
    replace (k =? speaker_num seg) with (Spec.in_cluster k seg)
      by apply Z.eqb_sym.
    destruct (Spec.in_cluster k seg), (Dict.get k w0) as [n|],
      (existsb (Spec.in_cluster k) td);
      cbn [option_map orb]; try reflexivity; f_equal; lia.
Qed.

Lemma get_count_words td k :
  Dict.get k (count_words td)
  = if existsb (Spec.in_cluster k) td then Some (words_of k td) else None.
Proof. unfold count_words. now rewrite get_count_words_from. Qed.

Lemma keys_count_words_from td (w0 : Dict.t Z) :
  Dict.keys
    (fold_left
       (fun w seg =>
          Dict.adjust
            (fun n => n + Z.of_nat (List.length (Py.split (text seg))))
            (speaker_num seg)
            (Dict.add_if_absent (speaker_num seg) 0 w))
       td w0)
  = Dict.keys w0
    ++ filter (absent_from (Dict.keys w0))
         (Spec.order_of_appearance (map speaker_num td)).
Proof.
  revert w0. induction td as [|seg td IH]; intros w0; simpl.
  - now rewrite app_nil_r.
  - rewrite IH, keys_adjust, keys_add_if_absent.
    destruct (Dict.mem (speaker_num seg) w0) eqn:Hmem.
    + assert (Hin : absent_from (Dict.keys w0) (speaker_num seg) = false).
      { unfold absent_from. apply negb_false_iff, existsb_exists.
        exists (speaker_num seg). split; [|apply Z.eqb_refl].
        now apply mem_In_keys. }
      rewrite Hin, filter_filter. f_equal.
      apply filter_ext_in. intros c _.
      destruct (c =? speaker_num seg) eqn:E; [|reflexivity].
      apply Z.eqb_eq in E; subst c. now rewrite Hin.
    + assert (Hout : absent_from (Dict.keys w0) (speaker_num seg) = true).
      { unfold absent_from. apply negb_true_iff.
        destruct (existsb _ _) eqn:E; [|reflexivity].
        apply existsb_exists in E as [y [Hy Heq]].
        apply Z.eqb_eq in Heq; subst y.
        apply mem_In_keys in Hy. congruence. }
      rewrite Hout, <- app_assoc. simpl. do 2 f_equal.
      rewrite filter_filter. apply filter_ext. intros c.
      unfold absent_from. rewrite existsb_app. simpl.
      rewrite orb_false_r, negb_orb. apply andb_comm.
Qed.

Lemma keys_count_words td : Dict.keys (count_words td) = Spec.clusters td.
Proof.
  unfold count_words. rewrite keys_count_words_from. simpl.
  unfold Spec.clusters.
  rewrite (filter_ext _ (fun _ => true)) by reflexivity.
  induction (Spec.order_of_appearance (map speaker_num td)); simpl;
    [reflexivity | now f_equal].
Qed.

Lemma insert_by_count_perm x l : Permutation (x :: l) (insert_by_count x l).
Proof.
  induction l as [|y l IH]; simpl; [apply Permutation_refl|].
  destruct (snd x <=? snd y); [apply Permutation_refl|].
  eapply perm_trans; [apply perm_swap|]. now apply perm_skip.
Qed.

Lemma sorted_by_count_perm l : Permutation l (sorted_by_count l).
Proof.
  induction l as [|x l IH]; simpl; [constructor|].
  eapply perm_trans; [apply perm_skip, IH | apply insert_by_count_perm].
Qed.

Lemma insert_by_count_sorted x l :
  StronglySorted by_count l -> StronglySorted by_count (insert_by_count x l).
Proof.
  induction l as [|y l IH]; intros Hs; simpl.
  - repeat constructor.
  - inversion Hs as [|? ? Hs' Hall]; subst.
    destruct (snd x <=? snd y) eqn:E.
    + apply Z.leb_le in E. constructor; [exact Hs|].
      constructor; [exact E|].
      eapply Forall_impl; [|exact Hall].
      intros z Hz. unfold by_count in *. lia.
    + apply Z.leb_gt in E. constructor; [now apply IH|].
      apply (Permutation_Forall (insert_by_count_perm x l)).
      constructor; [unfold by_count; lia | exact Hall].
Qed.

Lemma sorted_by_count_sorted l : StronglySorted by_count (sorted_by_count l).
Proof.
  induction l as [|x l IH]; simpl; [constructor|].
  now apply insert_by_count_sorted.
Qed.

Lemma sorted_last_greatest (l : list (Z * Z)) d y :
  StronglySorted by_count l -> In y l -> by_count y (last l d).
Proof.
  induction l as [|x l IH]; intros Hs Hy; [destruct Hy|].
  inversion Hs as [|? ? Hs' Hall]; subst.
  destruct l as [|z l'].
  - destruct Hy as [->|[]]. unfold by_count. simpl. lia.
  - change (last (x :: z :: l') d) with (last (z :: l') d).
    destruct Hy as [->|Hy]; [|now apply IH].
    rewrite Forall_forall in Hall. apply Hall, last_In. discriminate.
Qed.

Lemma count_words_entry td e :
  In e (count_words td) ->
  In (fst e) (Spec.clusters td) /\ snd e = words_of (fst e) td.
Proof.
  destruct e as [k n]. intros Hin. cbn [fst snd].
  assert (Hnd : NoDup (Dict.keys (count_words td)))
    by (rewrite keys_count_words; apply NoDup_order_of_appearance).
  split.
  - rewrite <- keys_count_words.
    change k with (fst (k, n)). now apply in_map.
  - apply (In_get_NoDup _ _ _ Hnd) in Hin.
    rewrite get_count_words in Hin.
    destruct (existsb _ _); congruence.
Qed.

Lemma count_words_cluster td k :
  In k (Spec.clusters td) -> In (k, words_of k td) (count_words td).
Proof.
  intros Hk. apply get_Some_In. rewrite get_count_words.
  apply In_clusters in Hk as (seg & Hseg & E).
  assert (existsb (Spec.in_cluster k) td = true) as ->; [|reflexivity].
  apply existsb_exists. exists seg. split; [exact Hseg|].
  unfold Spec.in_cluster. now apply Z.eqb_eq.
Qed.

(** X10. Taken alone, the word-count step applied with no role known to a
    transcript of two clusters or more makes a cluster with the fewest
    words the customer and a cluster with the most words the agent, two
    different clusters of the transcript; the words of a cluster are the
    blank-separated words of its segments. *)
Theorem word_count_step_ranks td :
  (2 <= List.length (Spec.clusters td))%nat ->
  exists c a,
    word_count_fallback td (None, None) = (Some c, Some a)
    /\ c <> a
    /\ In c (Spec.clusters td)
    /\ In a (Spec.clusters td)
    /\ forall k, In k (Spec.clusters td) ->
         words_of c td <= words_of k td <= words_of a td.
Proof.
  intros Hlen. unfold word_count_fallback. cbv zeta.
  pose proof (sorted_by_count_perm (count_words td)) as Hperm.
  pose proof (sorted_by_count_sorted (count_words td)) as Hsorted.
  assert (Hnd : NoDup (map fst (sorted_by_count (count_words td)))).
  { apply (Permutation_NoDup (Permutation_map fst Hperm)).
    change (map fst (count_words td)) with (Dict.keys (count_words td)).
    rewrite keys_count_words. apply NoDup_order_of_appearance. }
  assert (Hl : List.length (sorted_by_count (count_words td))
               = List.length (Spec.clusters td)).
  { rewrite <- (Permutation_length Hperm), <- keys_count_words.
    unfold Dict.keys. now rewrite length_map. }
  destruct (sorted_by_count (count_words td)) as [|fewest [|y r]] eqn:Es;
    simpl in Hl; try lia.
  set (most := last (fewest :: y :: r) fewest).
  assert (Hmost : In most (y :: r)).
  { unfold most. change (last (fewest :: y :: r) fewest)
      with (last (y :: r) fewest). apply last_In. discriminate. }
  assert (Hentry : forall e, In e (fewest :: y :: r) ->
            In (fst e) (Spec.clusters td) /\ snd e = words_of (fst e) td).
  { intros e He. apply count_words_entry.
    apply (Permutation_in _ (Permutation_sym Hperm) He). }
  destruct (Hentry fewest (or_introl eq_refl)) as [Hc Hwc].
  destruct (Hentry most (or_intror Hmost)) as [Ha Hwa].
  exists (fst fewest), (fst most). split; [reflexivity|].
  split.
  { inversion Hnd as [|? ? Hnotin _]; subst. intros E. apply Hnotin.
    rewrite E. exact (in_map fst (y :: r) most Hmost). }
  split; [exact Hc|]. split; [exact Ha|].
  assert (Hrange : forall e, In e (fewest :: y :: r) ->
            snd fewest <= snd e <= snd most).
  { intros e He. split.
    - inversion Hsorted as [|? ? _ Hall]; subst.
      destruct He as [<-|He]; [lia|].
      rewrite Forall_forall in Hall. exact (Hall _ He).
    - exact (sorted_last_greatest _ fewest _ Hsorted He). }
  intros k Hk. apply count_words_cluster in Hk.
  apply (Permutation_in _ Hperm) in Hk.
  rewrite <- Hwc, <- Hwa. exact (Hrange _ Hk).
Qed.

Lemma word_count_step_ranks_witness :
  (2 <= List.length (Spec.clusters Examples.service_call))%nat
  /\ word_count_fallback Examples.service_call (None, None)
     = (Some 2, Some 1)
  /\ words_of 2 Examples.service_call = 9
  /\ words_of 1 Examples.service_call = 14.
Proof.
  assert (H : (2 <= List.length (Spec.clusters Examples.service_call))%nat)
    by (vm_compute; lia).
  split; [exact H|].
  destruct (word_count_step_ranks _ H) as (c & a & E & _).
  vm_compute in E. injection E as <- <-.
  repeat split.
Defined.

(** ** Renumbering the speakers *)

Lemma fold_left_over_map {A B C : Type} (g : A -> C -> A) (h : B -> C)
    (l : list B) (a : A) :
  fold_left g (map h l) a = fold_left (fun a x => g a (h x)) l a.
Proof.
  revert a. induction l as [|x l IH]; intros a; simpl; [reflexivity|].
  apply IH.
Qed.

Section Renumbering.

Variable f : Z -> Z.
Hypothesis f_injective : forall x y, f x = f y -> x = y.

Lemma eqb_renumber x y : (f x =? f y) = (x =? y).
Proof.
  destruct (Z.eqb_spec x y) as [->|Hne]; [apply Z.eqb_refl|].
  apply Z.eqb_neq. intros E. now apply Hne, f_injective.
Qed.

Lemma get_renumber k (t : score_table) :
  Dict.get (f k) (renumber_table f t) = Dict.get k t.
Proof.
  induction t as [|[k' v] t IH]; simpl; [reflexivity|].
  rewrite eqb_renumber, IH. reflexivity.
Qed.

Lemma add_if_absent_renumber k v (t : score_table) :
  Dict.add_if_absent (f k) v (renumber_table f t)
  = renumber_table f (Dict.add_if_absent k v t).
Proof.
  unfold Dict.add_if_absent, Dict.mem. rewrite get_renumber.
  destruct (Dict.get k t); [reflexivity|].
  unfold renumber_table. now rewrite map_app.
Qed.

Lemma adjust_renumber g k (t : score_table) :
  Dict.adjust g (f k) (renumber_table f t)
  = renumber_table f (Dict.adjust g k t).
Proof.
  induction t as [|[k' v] t IH]; simpl; [reflexivity|].
  rewrite eqb_renumber. destruct (k =? k'); simpl; [reflexivity|].
  now rewrite IH.
Qed.

Lemma fold_renumber {A : Type}
    (step step' : score_table -> A -> score_table) (l : list A) :
  (forall t x, step' (renumber_table f t) x = renumber_table f (step t x)) ->
  forall t, fold_left step' l (renumber_table f t)
            = renumber_table f (fold_left step l t).
Proof.
  intros Hstep. induction l as [|x l IH]; intros t; simpl; [reflexivity|].
  now rewrite Hstep, IH.
Qed.

Lemma init_scores_renumber td :
  init_scores (map (renumber f) td) = renumber_table f (init_scores td).
Proof.
  unfold init_scores. rewrite fold_left_over_map.
  change (@nil (Z * scores)) with (renumber_table f []) at 1.
  apply fold_renumber. intros t seg. apply add_if_absent_renumber.
Qed.

Lemma fold_add_customer_renumber {A : Type} (p : A -> bool) k w
    (l : list A) t :
  fold_left (fun t x => if p x then add_customer (f k) w t else t) l
    (renumber_table f t)
  = renumber_table f
      (fold_left (fun t x => if p x then add_customer k w t else t) l t).
Proof.
  apply fold_renumber. intros t' x.
  destruct (p x); [apply adjust_renumber | reflexivity].
Qed.

Lemma fold_add_agent_renumber {A : Type} (p : A -> bool) k w
    (l : list A) t :
  fold_left (fun t x => if p x then add_agent (f k) w t else t) l
    (renumber_table f t)
  = renumber_table f
      (fold_left (fun t x => if p x then add_agent k w t else t) l t).
Proof.
  apply fold_renumber. intros t' x.
  destruct (p x); [apply adjust_renumber | reflexivity].
Qed.

Lemma score_segment_renumber t seg :
  score_segment (renumber_table f t) (renumber f seg)
  = renumber_table f (score_segment t seg).
Proof.
  unfold score_segment. cbn [renumber text speaker_num]. cbv zeta.
  now rewrite !fold_add_customer_renumber, !fold_add_agent_renumber.
Qed.

Lemma text_pass_renumber td t :
  text_pass (map (renumber f) td) (renumber_table f t)
  = renumber_table f (text_pass td t).
Proof.
  unfold text_pass. rewrite fold_left_over_map.
  apply fold_renumber. intros t' seg. apply score_segment_renumber.
Qed.

Lemma last_renumber td d :
  last (map (renumber f) td) (renumber f d) = renumber f (last td d).
Proof.
  induction td as [|x td IH]; [reflexivity|].
  destruct td as [|y td]; [reflexivity|]. exact IH.
Qed.

Lemma position_pass_renumber td t :
  position_pass (map (renumber f) td) (renumber_table f t)
  = renumber_table f (position_pass td t).
Proof.
  destruct td as [|first rest]; [reflexivity|].
  unfold position_pass. cbn [map].
  change (renumber f first :: map (renumber f) rest)
    with (map (renumber f) (first :: rest)).
  rewrite last_renumber. cbn [renumber speaker_num].
  unfold add_agent. now rewrite !adjust_renumber.
Qed.

Lemma question_pass_renumber td t :
  question_pass (map (renumber f) td) (renumber_table f t)
  = renumber_table f (question_pass td t).
Proof.
  revert t. induction td as [|cur td IH]; intros t; [reflexivity|].
  destruct td as [|next rest]; [reflexivity|].
  cbn [map]. rewrite !question_pass_step.
  change (renumber f next :: map (renumber f) rest)
    with (map (renumber f) (next :: rest)).
  cbn [renumber speaker_num text]. rewrite eqb_renumber.
  destruct (_ && _); [|apply IH].
  unfold add_customer, add_agent. rewrite !adjust_renumber. apply IH.
Qed.

Lemma speaker_scores_renumber td :
  speaker_scores (map (renumber f) td)
  = renumber_table f (speaker_scores td).
Proof.
  unfold speaker_scores.
  now rewrite init_scores_renumber, text_pass_renumber,
    position_pass_renumber, question_pass_renumber.
Qed.

Lemma primary_pass_renumber t :
  primary_pass (renumber_table f t) = renumber_roles f (primary_pass t).
Proof.
  unfold primary_pass.
  change (@None Z, @None Z) with (renumber_roles f (None, None)) at 1.
  generalize (@None Z, @None Z). 
  induction t as [|[sp sc] t IH]; intros a; [reflexivity|].
  cbn [renumber_table map fold_left fst snd].
  rewrite <- IH. f_equal.
  destruct a as [[c|] [a|]]; unfold primary_step, renumber_roles;
    cbn [fst snd option_map is_none];
    destruct (customer sc >? agent sc), (agent sc >? customer sc);
    reflexivity.
Qed.

Lemma neq_opt_renumber sp other :
  neq_opt (f sp) (option_map f other) = neq_opt sp other.
Proof.
  destruct other as [x|]; [|reflexivity].
  unfold neq_opt, eq_opt. simpl. now rewrite eqb_renumber.
Qed.

Lemma max_by_renumber score other t :
  max_by score (option_map f other) (renumber_table f t)
  = option_map f (max_by score other t).
Proof.
  unfold max_by.
  assert (H : forall m cur,
            fold_left (max_step score (option_map f other))
              (renumber_table f t) (m, option_map f cur)
            = (fst (fold_left (max_step score other) t (m, cur)),
               option_map f
                 (snd (fold_left (max_step score other) t (m, cur))))).
  { induction t as [|[sp sc] t IH]; intros m cur; [reflexivity|].
    cbn [renumber_table map fold_left fst snd max_step].
    rewrite neq_opt_renumber.
    destruct (neq_opt sp other && (score sc >? m)).
    - change (Some (f sp)) with (option_map f (Some sp)). apply IH.
    - apply IH. }
  change (@None Z) with (option_map f (@None Z)) at 1.
  now rewrite H.
Qed.

Lemma max_score_fallback_renumber t a :
  max_score_fallback (renumber_table f t) (renumber_roles f a)
  = renumber_roles f (max_score_fallback t a).
Proof.
  destruct a as [[c|] [a|]]; unfold max_score_fallback, renumber_roles;
    cbn [fst snd option_map is_none orb].
  - reflexivity.
  - pose proof (max_by_renumber agent (Some c) t) as H.
    cbn [option_map] in H. now rewrite H.
  - pose proof (max_by_renumber customer (Some a) t) as H.
    cbn [option_map] in H. now rewrite H.
  - pose proof (max_by_renumber customer None t) as H.
    cbn [option_map] in H. rewrite H.
    now rewrite max_by_renumber.
Qed.

Lemma resolve_roles_renumber td :
  resolve_roles (map (renumber f) td) = renumber_roles f (resolve_roles td).
Proof.
  rewrite !resolve_roles_after_max_score. unfold after_max_score. cbv zeta.
  now rewrite speaker_scores_renumber, primary_pass_renumber,
    max_score_fallback_renumber.
Qed.

Lemma identified_role_renumber lc la seg :
  identified_role (option_map f lc) (option_map f la) (renumber f seg)
  = identified_role lc la seg.
Proof.
  unfold identified_role. cbn [renumber speaker_num].
  assert (Heq : forall o, eq_opt (f (speaker_num seg)) (option_map f o)
                          = eq_opt (speaker_num seg) o).
  { intros [x|]; [|reflexivity]. simpl. apply eqb_renumber. }
  rewrite !Heq. now destruct lc, la.
Qed.

Lemma fallback_renumber td :
  create_fallback_transcript (map (renumber f) td)
    (fst (resolve_roles (map (renumber f) td)))
    (snd (resolve_roles (map (renumber f) td)))
  = create_fallback_transcript td
      (fst (resolve_roles td)) (snd (resolve_roles td)).
Proof.
  rewrite resolve_roles_renumber. unfold renumber_roles. cbn [fst snd].
  destruct td as [|seg0 td0]; [reflexivity|].
  pose proof (after_max_score_nonempty (seg0 :: td0)) as Hne.
  rewrite <- resolve_roles_after_max_score in Hne.
  set (td := seg0 :: td0) in *.
  destruct (resolve_roles td) as [lc la]. cbn [fst snd].
  unfold create_fallback_transcript, fallback_lines. f_equal.
  assert (Hb : is_none lc && is_none la = false).
  { destruct lc, la; try reflexivity. exfalso. now apply Hne. }
  assert (Hb' : is_none (option_map f lc) && is_none (option_map f la)
                = false) by (now destruct lc, la).
  rewrite Hb, Hb', map_map. apply map_ext. intros seg.
  now rewrite identified_role_renumber.
Qed.

End Renumbering.

(** X11. Speaker numbers are names only: renumbering the speakers of a
    transcript by a one-to-one map renumbers the score table and the
    resolved roles in the same way, and leaves the fallback transcript
    composed from those roles unchanged. *)
Theorem roles_follow_renumbering (f : Z -> Z) td :
  (forall x y, f x = f y -> x = y) ->
  speaker_scores (map (renumber f) td)
  = renumber_table f (speaker_scores td)
  /\ resolve_roles (map (renumber f) td)
     = renumber_roles f (resolve_roles td)
  /\ create_fallback_transcript (map (renumber f) td)
       (fst (resolve_roles (map (renumber f) td)))
       (snd (resolve_roles (map (renumber f) td)))
     = create_fallback_transcript td
         (fst (resolve_roles td)) (snd (resolve_roles td)).
Proof.
  intros Hinj. split; [now apply speaker_scores_renumber|].
  split; [now apply resolve_roles_renumber | now apply fallback_renumber].
Qed.

Lemma roles_follow_renumbering_witness :
  let f := fun x => 10 - x in
  (forall x y, f x = f y -> x = y)
  /\ resolve_roles (map (renumber f) Examples.service_call)
     = (Some 8, Some 9).
Proof.
  cbv zeta.
  assert (H : forall x y : Z, 10 - x = 10 - y -> x = y) by (intros; lia).
  split; [exact H|].
  destruct (roles_follow_renumbering (fun x => 10 - x)
              Examples.service_call H) as (_ & E & _).
  rewrite E. reflexivity.
Defined.

(** ** Entries prepared by [run_diarization] *)

Lemma lstrip_head s :
  lstrip s = EmptyString
  \/ exists c r, lstrip s = String c r /\ Py.is_space c = false.
Proof.
  induction s as [|c r IH]; simpl; [now left|].
  destruct (Py.is_space c) eqn:E; [exact IH|].
  right. now exists c, r.
Qed.

Lemma rstrip_cons c r :
  rstrip (String c r)
  = match rstrip r with
    | EmptyString =>
        if Py.is_space c then EmptyString else String c EmptyString
    | r' => String c r'
    end.
Proof. reflexivity. Qed.

Lemma rstrip_idempotent s : rstrip (rstrip s) = rstrip s.
Proof.
  induction s as [|c r IH]; [reflexivity|].
  rewrite rstrip_cons. destruct (rstrip r) as [|d r'] eqn:E.
  - destruct (Py.is_space c) eqn:Ec; [reflexivity|].
    rewrite rstrip_cons. simpl. now rewrite Ec.
  - rewrite rstrip_cons, IH. reflexivity.
Qed.

Lemma rstrip_keeps_head c r :
  Py.is_space c = false -> exists r', rstrip (String c r) = String c r'.
Proof.
  intros Hc. rewrite rstrip_cons. destruct (rstrip r) as [|d r'].
  - rewrite Hc. now exists EmptyString.
  - now exists (String d r').
Qed.

(** Stripping a stripped text changes nothing. *)
Lemma strip_idempotent s : strip (strip s) = strip s.
Proof.
  unfold strip.
  destruct (lstrip_head s) as [->|(c & r & -> & Hc)]; [reflexivity|].
  destruct (rstrip_keeps_head c r Hc) as [r' E].
  rewrite E. cbn [lstrip]. rewrite Hc, <- E. apply rstrip_idempotent.
Qed.

(** X12. When there is a cluster label for every transcribed segment,
    [run_diarization] prepares one entry per segment, in order: the number
    read back from the entry's speaker label is the segment's cluster
    label plus one, its start is the formatted start of the segment, and
    its text carries no leading and no trailing blank. *)
Theorem prepared_entries labels segments :
  (List.length segments <= List.length labels)%nat ->
  exists td,
    prepare labels segments = Some td
    /\ List.length td = List.length segments
    /\ map (fun e => speaker_num_of (speaker e)) td
       = map (fun label => Some (label + 1))
           (firstn (List.length segments) labels)
    /\ map start_time td = map fst segments
    /\ Forall (fun e => strip (text e) = text e) td.
Proof.
  revert labels. induction segments as [|[st raw] segments IH];
    intros labels Hlen.
  - exists []. repeat split. constructor.
  - destruct labels as [|label labels]; [simpl in Hlen; lia|].
    destruct (IH labels) as (td & E & Hl & Hs & Ht & Hf);
      [simpl in Hlen; lia|].
    exists (prepare_entry label st raw :: td). cbn [prepare].
    rewrite E. split; [reflexivity|].
    split; [simpl; now rewrite Hl|].
    split; [cbn [List.length firstn map];
            now rewrite speaker_num_of_speaker, Hs|].
    split; [simpl; now rewrite Ht|].
    constructor; [apply strip_idempotent | exact Hf].
Qed.

Lemma prepared_entries_witness :
  let labels := [0; 1] in
  let segments := [("0:00:01", "  Hello there ")] in
  (List.length segments <= List.length labels)%nat
  /\ exists td,
       prepare labels segments = Some td
       /\ List.length td = List.length segments
       /\ map (fun e => speaker_num_of (speaker e)) td
          = map (fun label => Some (label + 1))
              (firstn (List.length segments) labels)
       /\ map start_time td = map fst segments
       /\ Forall (fun e => strip (text e) = text e) td.
Proof.
  cbv zeta.
  assert (H : (List.length [("0:00:01", "  Hello there ")]
               <= List.length [0%Z; 1%Z])%nat) by (simpl; lia).
  split; [exact H | exact (prepared_entries _ _ H)].
Defined.

(** ** The plain rendering *)

Lemma speaker_injective s s' :
  speaker s = speaker s' -> speaker_num s = speaker_num s'.
Proof.
  intros E. pose proof (speaker_num_of_speaker s) as H.
  rewrite E, speaker_num_of_speaker in H. congruence.
Qed.

Lemma speaker_changed_spec seg (prev : option segment) :
  speaker_changed (speaker seg) (option_map speaker prev)
  = neq_opt (speaker_num seg) (option_map speaker_num prev).
Proof.
  destruct prev as [p|]; [|reflexivity].
  unfold speaker_changed, neq_opt, eq_opt. cbn [option_map]. f_equal.
  destruct (String.eqb_spec (speaker seg) (speaker p)) as [E|E].
  - symmetry. apply Z.eqb_eq. now apply speaker_injective.
  - symmetry. apply Z.eqb_neq. intros En. apply E.
    unfold speaker. now rewrite En.
Qed.

Lemma plain_lines_length_from td lines (prev : option segment) :
  List.length
    (fst (fold_left plain_step td (lines, option_map speaker prev)))
  = (List.length lines + List.length td
     + turns_after (option_map speaker_num prev) td)%nat.
Proof.
  revert lines prev. induction td as [|seg td IH]; intros lines prev.
  - simpl. lia.
  - cbn [fold_left plain_step turns_after].
    rewrite speaker_changed_spec.
    change (Some (speaker seg)) with (option_map speaker (Some seg)).
    rewrite IH. cbn [option_map List.length].
    destruct (neq_opt (speaker_num seg) (option_map speaker_num prev));
      rewrite !length_app; simpl; lia.
Qed.

Lemma filter_length_le {A : Type} (p : A -> bool) l :
  (List.length (filter p l) <= List.length l)%nat.
Proof.
  induction l as [|x l IH]; simpl; [lia|].
  destruct (p x); simpl; lia.
Qed.

Lemma turns_after_clusters (prev : Z) td :
  (List.length
     (filter (fun c => negb (c =? prev)%Z)
        (Spec.order_of_appearance (map speaker_num td)))
   <= turns_after (Some prev) td)%nat.
Proof.
  revert prev. induction td as [|seg td IH]; intros prev; [simpl; lia|].
  cbn [map Spec.order_of_appearance turns_after filter].
  specialize (IH (speaker_num seg)).
  unfold neq_opt, eq_opt.
  destruct (speaker_num seg =? prev) eqn:E; cbn [negb].
  - apply Z.eqb_eq in E. rewrite E in *.
    pose proof (filter_length_le (fun c => negb (c =? prev))
      (filter (fun c' => negb (c' =? prev))
         (Spec.order_of_appearance (map speaker_num td)))).
    lia.
  - pose proof (filter_length_le (fun c => negb (c =? prev))
      (filter (fun c' => negb (c' =? speaker_num seg))
         (Spec.order_of_appearance (map speaker_num td)))).
    cbn [List.length]. lia.
Qed.

(** ** Output paths *)

Lemma rfind_from_app c a b i found :
  PosixPath.rfind_from c (a ++ b)%string i found
  = PosixPath.rfind_from c b (i + Z.of_nat (String.length a))
      (PosixPath.rfind_from c a i found).
Proof.
  revert i found. induction a as [|d a IH]; intros i found.
  - simpl. now rewrite Z.add_0_r.
  - cbn [append PosixPath.rfind_from String.length]. rewrite IH.
    f_equal. lia.
Qed.

Lemma rfind_from_lacks c s i found :
  lacks c s = true -> PosixPath.rfind_from c s i found = found.
Proof.
  revert i found. induction s as [|d r IH]; intros i found H; [reflexivity|].
  simpl in *. apply andb_true_iff in H as [Hd Hr].
  apply negb_true_iff in Hd. rewrite Hd. now apply IH.
Qed.

Lemma rfind_from_range c s i found :
  PosixPath.rfind_from c s i found = found
  \/ i <= PosixPath.rfind_from c s i found
          < i + Z.of_nat (String.length s).
Proof.
  revert i found. induction s as [|d r IH]; intros i found; [now left|].
  cbn [PosixPath.rfind_from String.length].
  destruct (IH (i + 1) (if Ascii.eqb d c then i else found)) as [E|E].
  - rewrite E. destruct (Ascii.eqb d c); [right; lia | now left].
  - right. lia.
Qed.

Lemma rfind_range c s :
  -1 <= PosixPath.rfind c s < Z.of_nat (String.length s).
Proof.
  unfold PosixPath.rfind.
  destruct (rfind_from_range c s 0 (-1)) as [->|H]; lia.
Qed.

Lemma get_app_l a b i :
  (i < String.length a)%nat -> String.get i (a ++ b)%string = String.get i a.
Proof.
  revert i. induction a as [|d a IH]; intros i Hi; [simpl in Hi; lia|].
  destruct i as [|i]; [reflexivity|]. simpl. apply IH. simpl in Hi. lia.
Qed.

Lemma take_app a b : PosixPath.take (String.length a) (a ++ b)%string = a.
Proof. induction a as [|d a IH]; simpl; [now destruct b | now rewrite IH]. Qed.

(** The base name of [stem.ext] is [stem]. *)
Lemma splitext_stem stem ext :
  names_a_file stem -> lacks "." ext = true -> lacks "/" ext = true ->
  fst (PosixPath.splitext (stem ++ "." ++ ext)%string) = stem.
Proof.
  intros (i & Hsep & Hlen & Hdiff) Hdot Hslash.
  unfold PosixPath.splitext. cbv zeta.
  assert (Ed : PosixPath.rfind "." (stem ++ "." ++ ext)%string
               = Z.of_nat (String.length stem)).
  { unfold PosixPath.rfind. rewrite rfind_from_app.
    cbn [append PosixPath.rfind_from Ascii.eqb Bool.eqb].
    now rewrite rfind_from_lacks. }
  assert (Es : PosixPath.rfind "/" (stem ++ "." ++ ext)%string
               = PosixPath.rfind "/" stem).
  { unfold PosixPath.rfind. rewrite rfind_from_app.
    cbn [append PosixPath.rfind_from Ascii.eqb Bool.eqb].
    now rewrite rfind_from_lacks. }
  rewrite Ed, Es.
  pose proof (rfind_range "/" stem) as Hr.
  assert ((Z.of_nat (String.length stem) >? PosixPath.rfind "/" stem) = true)
    as -> by (apply Z.gtb_lt; lia).
  assert (existsb (PosixPath.differs_at "." (stem ++ "." ++ ext)%string)
            (seq (Z.to_nat (PosixPath.rfind "/" stem + 1))
               (Z.to_nat (Z.of_nat (String.length stem)
                          - (PosixPath.rfind "/" stem + 1)))) = true) as ->.
  { apply existsb_exists. exists i. split.
    - apply in_seq. lia.
    - unfold PosixPath.differs_at in *. now rewrite get_app_l. }
  cbn [andb fst]. rewrite Nat2Z.id. apply take_app.
Qed.

Lemma startswith_slash s :
  Py.startswith "/" s
  = match s with String c _ => Ascii.eqb c "/" | EmptyString => false end.
Proof.
  destruct s as [|c r]; [reflexivity|].
  unfold Py.startswith.
  change (String.prefix "/" (String c r))
    with (if ascii_dec "/" c then String.prefix "" r else false).
  destruct (ascii_dec "/" c) as [<-|Hne].
  - now destruct r.
  - symmetry. apply Ascii.eqb_neq. congruence.
Qed.

(** The base name begins with a slash exactly when the file name does. *)
Lemma splitext_root_absolute p :
  Py.startswith "/" (fst (PosixPath.splitext p)) = Py.startswith "/" p.
Proof.
  unfold PosixPath.splitext. cbv zeta.
  destruct ((PosixPath.rfind "." p >? PosixPath.rfind "/" p)
            && existsb (PosixPath.differs_at "." p)
                 (seq (Z.to_nat (PosixPath.rfind "/" p + 1))
                    (Z.to_nat (PosixPath.rfind "." p
                               - (PosixPath.rfind "/" p + 1))))) eqn:E;
    [|reflexivity].
  cbn [fst]. apply andb_true_iff in E as [_ E].
  apply existsb_exists in E as [i [Hi _]]. apply in_seq in Hi.
  pose proof (rfind_range "/" p) as Hr.
  assert (Hpos : (0 < Z.to_nat (PosixPath.rfind "." p))%nat) by lia.
  destruct (Z.to_nat (PosixPath.rfind "." p)) as [|n]; [lia|].
  destruct p as [|c r]; [reflexivity|].
  cbn [PosixPath.take]. now rewrite !startswith_slash.
Qed.

Lemma startswith_app_txt root :
  Py.startswith "/" (root ++ ".txt")%string = Py.startswith "/" root.
Proof.
  rewrite !startswith_slash. now destruct root.
Qed.

Lemma startswith_self a b : Py.startswith a (a ++ b)%string = true.
Proof. apply prefix_self. Qed.

(** X15. The output directory holds the transcript of a relative file name
    only: for a name that does not begin with a slash the output path
    begins with the output directory, while for a name that begins with a
    slash the output path is the name's own base followed by [.txt],
    whatever the output directory is. *)
Theorem output_file_and_directory output_dir filename :
  (Py.startswith "/" filename = false ->
   Py.startswith output_dir (output_file output_dir filename) = true)
  /\ (Py.startswith "/" filename = true ->
      output_file output_dir filename
      = (fst (PosixPath.splitext filename) ++ ".txt")%string).
Proof.
  unfold output_file, PosixPath.join. cbv zeta.
  rewrite startswith_app_txt, splitext_root_absolute.
  split; intros ->; [|reflexivity].
  destruct (String.eqb output_dir "" || Py.endswith "/" output_dir);
    apply startswith_self.
Qed.

Lemma output_file_and_directory_witness :
  Py.startswith "/" "/srv/calls/a1.wav" = true
  /\ output_file "out" "/srv/calls/a1.wav" = "/srv/calls/a1.txt"
  /\ Py.startswith "/" "a1.wav" = false
  /\ Py.startswith "out" (output_file "out" "a1.wav") = true.
Proof.
  destruct (output_file_and_directory "out" "/srv/calls/a1.wav")
    as [_ Habs].
  destruct (output_file_and_directory "out" "a1.wav") as [Hrel _].
  split; [reflexivity|]. split; [exact (Habs eq_refl)|].
  split; [reflexivity | exact (Hrel eq_refl)].
Defined.

(** ** The batch driver *)

(** Case analysis on a status code against 200, closing each case with
    [tac]. *)
Ltac status_cases code tac :=
  destruct code as [|code|code]; try tac;
  do 8 (destruct code as [code|code|]; try tac).

Lemma retry_sent_from refiner td ep sent :
  snd (retry_with_modified_prompt refiner td ep sent)
  = sent ++ [retry_request ep td].
Proof.
  unfold retry_with_modified_prompt, bind, post, ret.
  destruct (resolve_roles td) as [lc la].
  destruct (refiner (List.length sent) (retry_request ep td))
    as [|code [body|]]; try reflexivity;
    status_cases code ltac:(reflexivity).
Qed.

(** From any log, a run appends the plain request and at most the retry. *)
Lemma process_sent_from refiner td ep sent :
  snd (process_transcript_with_llm refiner td ep sent)
  = sent ++ [first_request ep td]
  \/ snd (process_transcript_with_llm refiner td ep sent)
     = sent ++ [first_request ep td; retry_request ep td].
Proof.
  unfold process_transcript_with_llm, bind, post, ret.
  destruct (refiner (List.length sent) (first_request ep td))
    as [|code [body|]]; try (now left);
    status_cases code ltac:(now left).
  destruct (negb (Py.contains "AGENT" body)
            || negb (Py.contains "CUSTOMER" body)); [|now left].
  right. rewrite retry_sent_from, <- app_assoc. reflexivity.
Qed.

Section BatchFacts.

Variable refiner : nat -> request -> reply.
Variable path_exists : string -> bool.
Variable diarize : string -> option transcript.
Variable writable : string -> bool.
Variables (output_dir : string) (use_llm : bool) (llm_endpoint : string).

Let step := process_row refiner path_exists diarize writable
              output_dir use_llm llm_endpoint.

(** What one row can add to the world. *)
Lemma process_row_effect w r :
  (step w r = w
   /\ (path_exists (file_path r) = false \/ diarize (file_path r) = None))
  \/ exists td final,
       path_exists (file_path r) = true
       /\ diarize (file_path r) = Some td
       /\ (use_llm = false ->
           final = plain_transcript td
           /\ requests (step w r) = requests w)
       /\ (requests (step w r) = requests w
           \/ requests (step w r) = requests w ++ [first_request llm_endpoint td]
           \/ requests (step w r)
              = requests w ++ [first_request llm_endpoint td;
                               retry_request llm_endpoint td])
       /\ (files (step w r) = files w
           \/ files (step w r)
              = files w ++ [(output_file output_dir (filename r), final)]).
Proof.
  unfold step, process_row.
  destruct (path_exists (file_path r)) eqn:Ee; cbn [negb];
    [|left; auto].
  destruct (diarize (file_path r)) as [td|] eqn:Ed; [|left; auto].
  right. cbv zeta.
  destruct use_llm.
  - pose proof (process_sent_from refiner td llm_endpoint (requests w))
      as Hsent.
    destruct (process_transcript_with_llm refiner td llm_endpoint
                (requests w)) as [final sent].
    cbn [snd] in Hsent.
    exists td, final. split; [reflexivity|]. split; [reflexivity|].
    split; [discriminate|].
    destruct (writable (output_file output_dir (filename r)));
      cbn [requests files]; (split; [tauto | auto]).
  - exists td, (plain_transcript td).
    split; [reflexivity|]. split; [reflexivity|].
    destruct (writable (output_file output_dir (filename r)));
      cbn [requests files]; (split; [auto|]); (split; [auto | auto]).
Qed.

Lemma process_rows_bounds rows w :
  let w' := process_rows refiner path_exists diarize writable
              output_dir use_llm llm_endpoint rows w in
  (forall p c, In (p, c) (files w') ->
     In (p, c) (files w)
     \/ exists r td,
          In r rows
          /\ path_exists (file_path r) = true
          /\ diarize (file_path r) = Some td
          /\ p = output_file output_dir (filename r)
          /\ (use_llm = false -> c = plain_transcript td))
  /\ (List.length (files w') <= List.length (files w) + List.length rows)%nat
  /\ (List.length (requests w')
      <= List.length (requests w) + 2 * List.length rows)%nat
  /\ (use_llm = false -> requests w' = requests w).
Proof.
  cbv zeta. unfold process_rows. fold step.
  revert w. induction rows as [|r rows IH]; intros w.
  - simpl. repeat split; auto; lia.
  - cbn [fold_left]. destruct (IH (step w r)) as (Hf & Hlf & Hlr & Hno).
    destruct (process_row_effect w r)
      as [[E _]|(td & final & He & Hd & Hplain & Hreq & Hfiles)].
    + rewrite E in *. repeat split.
      * intros p c Hin. destruct (Hf p c Hin) as [H|(r' & td & H & H')];
          [now left | right; exists r', td; split; [now right | exact H']].
      * cbn [List.length]. lia.
      * cbn [List.length]. lia.
      * exact Hno.
    + repeat split.
      * intros p c Hin.
        destruct (Hf p c Hin) as [H|(r' & td' & H & H')].
        -- destruct Hfiles as [Ef|Ef]; rewrite Ef in H; [now left|].
           apply in_app_or in H as [H|[H|[]]]; [now left|].
           injection H as <- <-. right. exists r, td.
           split; [now left|]. repeat split; auto.
           intros Hu. now destruct (Hplain Hu).
        -- right. exists r', td'. split; [now right | exact H'].
      * cbn [List.length].
        destruct Hfiles as [Ef|Ef]; rewrite Ef in Hlf;
          [|rewrite length_app in Hlf; simpl in Hlf]; lia.
      * cbn [List.length].
        destruct Hreq as [Er|[Er|Er]]; rewrite Er in Hlr;
          try (rewrite length_app in Hlr; simpl in Hlr); lia.
      * intros Hu. rewrite (Hno Hu). now destruct (Hplain Hu).
Qed.

End BatchFacts.

(** X16. Whatever the rows, a batch writes one file at most per row, each
    named after a row whose input file exists and was transcribed, and
    holding the plain rendering when the refinement is switched off; it
    sends two requests at most per row, and none at all when the
    refinement is switched off. *)
Theorem batch_writes_and_requests refiner path_exists diarize writable
    output_dir use_llm llm_endpoint rows w :
  let w' := process_rows refiner path_exists diarize writable
              output_dir use_llm llm_endpoint rows w in
  (forall p c, In (p, c) (files w') ->
     In (p, c) (files w)
     \/ exists r td,
          In r rows
          /\ path_exists (file_path r) = true
          /\ diarize (file_path r) = Some td
          /\ p = output_file output_dir (filename r)
          /\ (use_llm = false -> c = plain_transcript td))
  /\ (List.length (files w') <= List.length (files w) + List.length rows)%nat
  /\ (List.length (requests w')
      <= List.length (requests w) + 2 * List.length rows)%nat
  /\ (use_llm = false -> requests w' = requests w).
Proof. apply process_rows_bounds. Qed.

(** X18. In a run, the even/odd rule of [create_fallback_transcript] never
    labels a segment: the roles handed over by the resolver are both
    unknown for the empty transcript only, so every line of a fallback
    transcript is labelled from the resolved roles. *)
Theorem parity_rule_never_applies td :
  fallback_lines td (fst (resolve_roles td)) (snd (resolve_roles td))
  = map (fun seg =>
           line (identified_role (fst (resolve_roles td))
                   (snd (resolve_roles td)) seg) seg) td.
Proof.
  destruct td as [|seg0 td0]; [reflexivity|].
  pose proof (after_max_score_nonempty (seg0 :: td0)) as Hne.
  rewrite <- resolve_roles_after_max_score in Hne.
  destruct (resolve_roles (seg0 :: td0)) as [[c|] [a|]]; try reflexivity.
  exfalso. now apply Hne.
Qed.

(** ** The retry prompt *)

Lemma append_assoc (a b c : string) :
  ((a ++ b) ++ c = a ++ (b ++ c))%string.
Proof. induction a as [|x a IH]; simpl; [reflexivity | now rewrite IH]. Qed.

Lemma append_empty_r (a : string) : (a ++ "")%string = a.
Proof. induction a as [|x a IH]; simpl; [reflexivity | now rewrite IH]. Qed.

Lemma concat_empty_cons x items :
  String.concat "" (x :: items) = (x ++ String.concat "" items)%string.
Proof.
  destruct items as [|y items]; simpl; [now rewrite append_empty_r|].
  reflexivity.
Qed.

(** A loop that appends one rendered item per segment builds the
    concatenation of the items. *)
Lemma fold_append (item : segment -> string) td acc :
  fold_left (fun acc seg => (acc ++ item seg)%string) td acc
  = (acc ++ String.concat "" (map item td))%string.
Proof.
  revert acc. induction td as [|seg td IH]; intros acc.
  - simpl. now rewrite append_empty_r.
  - cbn [fold_left map]. rewrite IH, concat_empty_cons.
    apply append_assoc.
Qed.

(** The score printed in a hint is the score of the four rules. *)
Lemma score_shown (field : scores -> Z) td seg :
  In seg td ->
  score_or_zero field (speaker_num seg) (speaker_scores td)
  = field (mkScores (Spec.customer_score (speaker_num seg) td)
                    (Spec.agent_score (speaker_num seg) td)).
Proof.
  intros Hin. unfold score_or_zero.
  rewrite get_speaker_scores. unfold Spec.reference_scores.
  assert (existsb (Spec.in_cluster (speaker_num seg)) td = true) as ->;
    [|reflexivity].
  apply existsb_exists. exists seg. split; [exact Hin | apply Z.eqb_refl].
Qed.

(** C8. A 200 response to the first attempt is accepted exactly when both
    tokens AGENT and CUSTOMER occur in its text.  When one is missing, a
    second request is sent whose prompt holds, between its fixed head and
    tail, one item per segment in which the speaker label is followed by
    the hint of that segment: for a segment of the resolved customer the
    hint reads (likely CUSTOMER), for a segment of the resolved agent
    (likely AGENT), each with the cluster's score for that role when it is
    positive, and for any other segment there is no hint.  The text of any
    200 response to the second request is the result, whether or not the
    tokens occur in it. *)
Theorem validation_then_retry refiner td ep refined :
  refiner 0%nat (first_request ep td) = Response 200 (Some refined) ->
  let run := process_transcript_with_llm refiner td ep [] in
  let t := speaker_scores td in
  let roles := resolve_roles td in
  (Spec.has_both_roles refined = true ->
   run = (refined, [first_request ep td]))
  /\ (Spec.has_both_roles refined = false ->
      snd run = [first_request ep td; retry_request ep td]
      /\ prompt (retry_request ep td)
         = (retry_prompt_head
            ++ String.concat ""
                 (map (fun seg =>
                         (speaker seg ++ speaker_hint t roles seg)
                         ++ " at " ++ start_time seg ++ ": " ++ text seg
                         ++ nl ++ nl) td)
            ++ retry_prompt_tail)%string
      /\ (forall seg, In seg td ->
            fst roles = Some (speaker_num seg) ->
            speaker_hint t roles seg
            = if Spec.customer_score (speaker_num seg) td >? 0
              then (" (likely CUSTOMER - score: "
                    ++ Py.str_of_int
                         (Spec.customer_score (speaker_num seg) td)
                    ++ ")")%string
              else " (likely CUSTOMER)")
      /\ (forall seg, In seg td ->
            snd roles = Some (speaker_num seg) ->
            speaker_hint t roles seg
            = if Spec.agent_score (speaker_num seg) td >? 0
              then (" (likely AGENT - score: "
                    ++ Py.str_of_int
                         (Spec.agent_score (speaker_num seg) td)
                    ++ ")")%string
              else " (likely AGENT)")
      /\ (forall seg,
            fst roles <> Some (speaker_num seg) ->
            snd roles <> Some (speaker_num seg) ->
            speaker_hint t roles seg = "")
      /\ forall refined2,
           refiner 1%nat (retry_request ep td)
           = Response 200 (Some refined2) ->
           fst run = refined2).
Proof.
  intros Hr. cbv zeta. split.
  - now apply accepted_first_attempt.
  - intros Hboth.
    rewrite (retried_after_first_attempt _ _ _ _ Hr Hboth), retry_run.
    split; [reflexivity|]. split.
    { unfold retry_request, retry_prompt, hinted_input, line.
      cbn [prompt]. rewrite fold_append.
      change (("" ++ ?x)%string) with x. do 3 f_equal.
      apply map_ext. intros seg.
      rewrite (append_assoc (speaker seg ++ _)). f_equal.
      change ((" at " ++ ?x) ++ ?y)%string with (" at " ++ (x ++ y))%string.
      f_equal. rewrite append_assoc. reflexivity. }
    pose proof (after_max_score_sound td) as (_ & _ & Hdistinct).
    rewrite <- resolve_roles_after_max_score in Hdistinct.
    destruct (resolve_roles td) as [lc la]. cbn [fst snd].
    split.
    { intros seg Hin ->. unfold speaker_hint, eq_opt.
      rewrite Z.eqb_refl.
      rewrite (score_shown customer td seg Hin).
      cbn [customer]. destruct (_ >? 0); reflexivity. }
    split.
    { intros seg Hin ->. unfold speaker_hint, eq_opt.
      assert (Hlc : match lc with
                    | Some x => speaker_num seg =? x
                    | None => false
                    end = false).
      { destruct lc as [c|]; [|reflexivity]. apply Z.eqb_neq.
        intros E. apply (Hdistinct c (speaker_num seg)); congruence. }
      rewrite Hlc, Z.eqb_refl.
      rewrite (score_shown agent td seg Hin).
      cbn [agent]. destruct (_ >? 0); reflexivity. }
    split.
    { intros seg Hc Ha. unfold speaker_hint, eq_opt.
      destruct lc as [c|], la as [a|];
        repeat match goal with
        | |- context [speaker_num seg =? ?x] =>
            let E := fresh in
            destruct (Z.eqb_spec (speaker_num seg) x) as [E|E];
            [exfalso; (apply Hc; now rewrite E) || (apply Ha; now rewrite E)|]
        end; reflexivity. }
    intros refined2 ->. reflexivity.
Qed.

Lemma validation_then_retry_witness :
  let td := Examples.three_speakers in
  let refiner := Examples.one_role_then_plain in
  refiner 0%nat (first_request default_endpoint td)
  = Response 200 (Some "AGENT at 0:00:00: hello")
  /\ Spec.has_both_roles "AGENT at 0:00:00: hello" = false
  /\ Spec.has_both_roles "hello yes ok bye" = false
  /\ process_transcript_with_llm refiner td default_endpoint []
     = ("hello yes ok bye",
        [first_request default_endpoint td;
         retry_request default_endpoint td])
  /\ speaker_hint (speaker_scores td) (resolve_roles td)
       (mkSegment 3 "0:00:00" "hello")
     = " (likely AGENT - score: 2)".
Proof.
  cbv zeta.
  pose proof (validation_then_retry Examples.one_role_then_plain
                Examples.three_speakers default_endpoint
                "AGENT at 0:00:00: hello" eq_refl) as [_ H].
  destruct (H eq_refl) as (Hsent & _ & _ & Hagent & _ & Hout).
  specialize (Hout "hello yes ok bye" eq_refl).
  do 3 (split; [reflexivity|]). split.
  - rewrite (surjective_pairing (process_transcript_with_llm _ _ _ _)).
    now rewrite Hsent, Hout.
  - rewrite (Hagent (mkSegment 3 "0:00:00" "hello"));
      [reflexivity | now left | reflexivity].
Defined.

(** ** Headers of the plain rendering *)

Lemma plain_lines_from td lines (prev : option segment) :
  fst (fold_left plain_step td (lines, option_map speaker prev))
  = lines
    ++ flat_map
         (fun item =>
            (if neq_opt (speaker_num (snd item)) (fst item)
             then [nl ++ speaker (snd item) ++ " at "
                   ++ start_time (snd item) ++ nl]%string
             else [])
            ++ [text (snd item) ++ " "]%string)
         (combine
            (option_map speaker_num prev
             :: map (fun seg => Some (speaker_num seg)) td) td).
Proof.
  revert lines prev. induction td as [|seg td IH]; intros lines prev.
  - simpl. now rewrite app_nil_r.
  - cbn [fold_left plain_step map combine flat_map fst snd].
    rewrite speaker_changed_spec.
    change (Some (speaker seg)) with (option_map speaker (Some seg)).
    rewrite IH. cbn [option_map].
    destruct (neq_opt (speaker_num seg) (option_map speaker_num prev));
      rewrite <- !app_assoc; reflexivity.
Qed.

(** X13. With the refinement switched off, the rendering joins with
    newlines, segment by segment and in order, the text of the segment
    followed by a blank, preceded by a header item (a newline, the speaker
    label, the word at, the start time, a newline) exactly when the segment
    is the first one or its speaker number differs from that of the
    segment before.  The items are as many as the segments plus the turns,
    and the turns are at least as many as the clusters and at most as many
    as the segments. *)
Theorem plain_rendering_headers td :
  plain_transcript td
  = Py.join nl
      (flat_map
         (fun item =>
            (if neq_opt (speaker_num (snd item)) (fst item)
             then [nl ++ speaker (snd item) ++ " at "
                   ++ start_time (snd item) ++ nl]%string
             else [])
            ++ [text (snd item) ++ " "]%string)
         (with_previous td))
  /\ List.length (plain_lines td) = (List.length td + turns td)%nat
  /\ (List.length (Spec.clusters td) <= turns td)%nat
  /\ (turns td <= List.length td)%nat.
Proof.
  split; [|split; [|split]].
  - unfold plain_transcript, plain_lines, with_previous. f_equal.
    change (@None string) with (option_map speaker (@None segment)).
    rewrite plain_lines_from. reflexivity.
  - unfold plain_lines, turns.
    change (@None string) with (option_map speaker (@None segment)).
    rewrite plain_lines_length_from. reflexivity.
  - unfold turns, Spec.clusters. destruct td as [|seg td]; [simpl; lia|].
    cbn [map Spec.order_of_appearance turns_after neq_opt eq_opt negb
         List.length].
    pose proof (turns_after_clusters (speaker_num seg) td). lia.
  - unfold turns. generalize (@None Z).
    induction td as [|seg td IH]; intros prev; simpl; [lia|].
    specialize (IH (Some (speaker_num seg))).
    destruct (neq_opt (speaker_num seg) prev); lia.
Qed.

(** ** The extension of the input file *)

(** X14. The extension of a file name does not reach the output path: a
    name made of a stem, a dot and an extension without dot or slash gets
    the path that [os.path.join] makes of the output directory and of the
    stem followed by [.txt], so two input files that differ in their
    extension only are given the same output file.  When the stem does
    not begin with a slash, that path is the output directory, a slash
    unless the directory is empty or ends with one, the stem and
    [.txt]. *)
Theorem output_file_drops_extension output_dir stem ext ext' :
  names_a_file stem ->
  lacks "." ext = true -> lacks "/" ext = true ->
  lacks "." ext' = true -> lacks "/" ext' = true ->
  output_file output_dir (stem ++ "." ++ ext)%string
  = PosixPath.join output_dir (stem ++ ".txt")%string
  /\ output_file output_dir (stem ++ "." ++ ext)%string
     = output_file output_dir (stem ++ "." ++ ext')%string
  /\ (Py.startswith "/" stem = false ->
      output_file output_dir (stem ++ "." ++ ext)%string
      = (output_dir ++ separator output_dir ++ stem ++ ".txt")%string).
Proof.
  intros Hstem Hd Hs Hd' Hs'. unfold output_file. cbv zeta.
  rewrite !splitext_stem by assumption.
  split; [reflexivity|]. split; [reflexivity|].
  intros Hrel. unfold PosixPath.join, separator.
  rewrite startswith_app_txt, Hrel.
  destruct (String.eqb output_dir "" || Py.endswith "/" output_dir);
    reflexivity.
Qed.

Lemma output_file_drops_extension_witness :
  names_a_file "calls/a1"
  /\ Py.startswith "/" "calls/a1" = false
  /\ output_file "out" "calls/a1.wav" = "out/calls/a1.txt"
  /\ output_file "out" "calls/a1.wav" = output_file "out" "calls/a1.mp3".
Proof.
  assert (H : names_a_file "calls/a1").
  { exists 6%nat. repeat split; vm_compute; congruence || lia. }
  split; [exact H|]. split; [reflexivity|].
  destruct (output_file_drops_extension "out" "calls/a1" "wav" "mp3" H
              eq_refl eq_refl eq_refl eq_refl) as (_ & E2 & E3).
  split; [exact (E3 eq_refl) | exact E2].
Defined.
